(** * tiny-shell: a shallow embedding of [tinyshell_final.c]

    The job table, the reaper, the [fg]/[bg] built-ins, the foreground
    wait, the parent side of the pipeline launch and the per-stage argument
    handling of the child are translated function by function.  The kernel
    is not part of the program: what it answers ([fork], [pipe], [open],
    [waitpid]) is an input of the model, and what the shell asks of it
    ([kill], [tcsetpgrp], [close], [sigprocmask], output) is recorded in
    the state. *)

From Stdlib Require Import ZArith String Ascii Lia.
From stdpp Require Import base list strings pretty gmap.

Local Open Scope string_scope.
Local Open Scope list_scope.
Local Open Scope Z_scope.

Set Warnings "-clear-no-such-hyp".

(** ** Constants of the source *)

Definition MAX_ARGS : nat := 64.
Definition MAX_JOBS : nat := 16.
Definition MAX_COMMANDS : nat := 16.

Definition UNDEF : Z := 0.
Definition FG : Z := 1.
Definition BG : Z := 2.
Definition ST : Z := 3.

Definition STDIN_FILENO : Z := 0.
Definition STDOUT_FILENO : Z := 1.

(** [SIGCONT] of <signal.h>; 18 is its Linux value.  Nothing below depends
    on the number. *)
Definition SIGCONT : Z := 18.

(** [INT_MAX]: [next_jid++] is defined in C only below it. *)
Definition INT_MAX : Z := 2147483647.
Definition INT_MIN : Z := -2147483648.

(** ** The job table *)

Record job_t := Job {
  pid : Z;            (* process id of the group leader *)
  jid : Z;            (* job id *)
  state : Z;          (* UNDEF, FG, BG or ST *)
  cmdline : string
}.

Global Instance job_t_eq_dec : EqDecision job_t.
Proof. solve_decision. Defined.

(** [clearjob]: what the four assignments leave in a slot. *)
Definition clearjob (job : job_t) : job_t :=
  {| pid := 0; jid := 0; state := UNDEF; cmdline := "" |}.

(** [initjobs]: [for (i = 0; i < MAX_JOBS; i++) clearjob(&jobs[i])]. *)
Definition initjobs (jobs : list job_t) : list job_t :=
  (clearjob <$> take MAX_JOBS jobs) ++ drop MAX_JOBS jobs.

(** The global array [struct job_t jobs[MAX_JOBS]] before [main] runs:
    static storage, every byte zero. *)
Definition jobs_static : list job_t := replicate MAX_JOBS (Job 0 0 0 "").

(** The loops [for (i = 0; i < MAX_JOBS; i++) if (cond(jobs[i])) ...] all
    stop at the first slot that satisfies the condition; a pointer to a
    slot is its index. *)
Definition first_slot (P : job_t → Prop) `{∀ j, Decision (P j)}
    (jobs : list job_t) : option nat :=
  fst <$> list_find P (take MAX_JOBS jobs).

Definition getjobpid (jobs : list job_t) (p : Z) : option nat :=
  first_slot (λ j, pid j = p) jobs.

Definition getjobjid (jobs : list job_t) (k : Z) : option nat :=
  first_slot (λ j, jid j = k) jobs.

(** [addjob] works on the table and on the global [next_jid]; it returns
    the C result (1 or 0) with both.  [next_jid + 1] is what [next_jid++]
    leaves while the counter is below [INT_MAX]; at [INT_MAX] the
    increment of the [int] overflows, and the model is not the code
    there. *)
Definition addjob (jobs : list job_t) (next_jid : Z) (p : Z) (st : Z)
    (cmd : string) : Z * list job_t * Z :=
  if decide (p < 1) then (0, jobs, next_jid)
  else match first_slot (λ j, pid j = 0) jobs with
       | Some i =>
           (1, <[i := {| pid := p; jid := next_jid; state := st;
                         cmdline := cmd |}]> jobs, next_jid + 1)
       | None => (0, jobs, next_jid)
       end.

Definition deletejob (jobs : list job_t) (p : Z) : Z * list job_t :=
  if decide (p < 1) then (0, jobs)
  else match first_slot (λ j, pid j = p) jobs with
       | Some i =>
           match jobs !! i with
           | Some j => (1, <[i := clearjob j]> jobs)
           | None => (0, jobs)
           end
       | None => (0, jobs)
       end.

Definition pid2jid (jobs : list job_t) (p : Z) : Z :=
  match first_slot (λ j, pid j = p) jobs with
  | Some i => from_option jid 0 (jobs !! i)
  | None => 0
  end.

(** One line of [listjobs], as its four [printf] calls write it. *)
Definition listjobs_line (j : job_t) : string :=
  "[" +:+ pretty (jid j) +:+ "] (" +:+ pretty (pid j) +:+ ") " +:+
  (if decide (state j = BG) then "Running "
   else if decide (state j = FG) then "Foreground "
   else "Stopped ") +:+
  cmdline j +:+ String "010" "".

Definition listjobs (jobs : list job_t) : list string :=
  listjobs_line <$> filter (λ j, pid j ≠ 0) (take MAX_JOBS jobs).

(** A slot is live when it holds a job, that is when its [pid] is not 0:
    this is the test of [addjob] and of [listjobs]. *)
Definition live (j : job_t) : Prop := pid j ≠ 0.

Global Instance live_dec j : Decision (live j).
Proof. unfold live; apply _. Defined.

(** ** The shell's state

    The globals of the source, followed by what the kernel keeps for the
    shell and what the shell has written. *)

Definition termios := Z.

Record shell := Shell {
  jobs : list job_t;
  next_jid : Z;
  shell_pgid : Z;
  shell_tmodes : termios;        (* saved by [tcgetattr] in [main] *)
  (* kernel side *)
  term_pgrp : Z;                 (* foreground process group of the terminal *)
  term_modes : termios;          (* line discipline now in force *)
  sigchld_blocked : bool;        (* SIGCHLD in the signal mask *)
  fds : list Z;                  (* pipe ends the shell holds open *)
  pgrps : list (Z * Z);          (* [setpgid] calls made: process, group *)
  kills : list (Z * Z);          (* [kill] calls made: target, signal *)
  children : gset Z;             (* forked and not yet waited for *)
  (* written by the shell *)
  out : list string;             (* stdout, one entry per line written *)
  err : list string              (* stderr, one entry per [perror] *)
}.

Definition set_jobs (v : list job_t) (sh : shell) : shell :=
  Shell v (next_jid sh) (shell_pgid sh) (shell_tmodes sh) (term_pgrp sh)
    (term_modes sh) (sigchld_blocked sh) (fds sh) (pgrps sh) (kills sh)
    (children sh) (out sh) (err sh).
Definition set_next_jid (v : Z) (sh : shell) : shell :=
  Shell (jobs sh) v (shell_pgid sh) (shell_tmodes sh) (term_pgrp sh)
    (term_modes sh) (sigchld_blocked sh) (fds sh) (pgrps sh) (kills sh)
    (children sh) (out sh) (err sh).
Definition set_term_pgrp (v : Z) (sh : shell) : shell :=
  Shell (jobs sh) (next_jid sh) (shell_pgid sh) (shell_tmodes sh) v
    (term_modes sh) (sigchld_blocked sh) (fds sh) (pgrps sh) (kills sh)
    (children sh) (out sh) (err sh).
Definition set_term_modes (v : termios) (sh : shell) : shell :=
  Shell (jobs sh) (next_jid sh) (shell_pgid sh) (shell_tmodes sh)
    (term_pgrp sh) v (sigchld_blocked sh) (fds sh) (pgrps sh) (kills sh)
    (children sh) (out sh) (err sh).
Definition set_sigchld_blocked (v : bool) (sh : shell) : shell :=
  Shell (jobs sh) (next_jid sh) (shell_pgid sh) (shell_tmodes sh)
    (term_pgrp sh) (term_modes sh) v (fds sh) (pgrps sh) (kills sh)
    (children sh) (out sh) (err sh).
Definition set_fds (v : list Z) (sh : shell) : shell :=
  Shell (jobs sh) (next_jid sh) (shell_pgid sh) (shell_tmodes sh)
    (term_pgrp sh) (term_modes sh) (sigchld_blocked sh) v (pgrps sh)
    (kills sh) (children sh) (out sh) (err sh).
Definition set_pgrps (v : list (Z * Z)) (sh : shell) : shell :=
  Shell (jobs sh) (next_jid sh) (shell_pgid sh) (shell_tmodes sh)
    (term_pgrp sh) (term_modes sh) (sigchld_blocked sh) (fds sh) v
    (kills sh) (children sh) (out sh) (err sh).
Definition set_kills (v : list (Z * Z)) (sh : shell) : shell :=
  Shell (jobs sh) (next_jid sh) (shell_pgid sh) (shell_tmodes sh)
    (term_pgrp sh) (term_modes sh) (sigchld_blocked sh) (fds sh) (pgrps sh)
    v (children sh) (out sh) (err sh).
Definition set_children (v : gset Z) (sh : shell) : shell :=
  Shell (jobs sh) (next_jid sh) (shell_pgid sh) (shell_tmodes sh)
    (term_pgrp sh) (term_modes sh) (sigchld_blocked sh) (fds sh) (pgrps sh)
    (kills sh) v (out sh) (err sh).
Definition set_out (v : list string) (sh : shell) : shell :=
  Shell (jobs sh) (next_jid sh) (shell_pgid sh) (shell_tmodes sh)
    (term_pgrp sh) (term_modes sh) (sigchld_blocked sh) (fds sh) (pgrps sh)
    (kills sh) (children sh) v (err sh).
Definition set_err (v : list string) (sh : shell) : shell :=
  Shell (jobs sh) (next_jid sh) (shell_pgid sh) (shell_tmodes sh)
    (term_pgrp sh) (term_modes sh) (sigchld_blocked sh) (fds sh) (pgrps sh)
    (kills sh) (children sh) (out sh) v.

(** ** Library and system calls, as the shell sees them *)

Definition nl : string := String "010" "".

Definition printf (s : string) (sh : shell) : shell :=
  set_out (out sh ++ [s]) sh.

(** [perror(s)] writes [s], a colon and the text of [errno]; the entry
    keeps the prefix, which is the part the program chooses. *)
Definition perror (s : string) (sh : shell) : shell :=
  set_err (err sh ++ [s]) sh.

Definition kill (target sig : Z) (sh : shell) : shell :=
  set_kills (kills sh ++ [(target, sig)]) sh.

(** [tcsetpgrp(shell_terminal, pgid)].  The shell ignores SIGTTOU, so the
    call goes through from the background too; the refusal of a group the
    session does not have is not modelled. *)
Definition tcsetpgrp (pgid : Z) (sh : shell) : shell :=
  set_term_pgrp pgid sh.

Definition setpgid (p pg : Z) (sh : shell) : shell :=
  set_pgrps (pgrps sh ++ [(p, pg)]) sh.

Definition close (fd : Z) (sh : shell) : shell :=
  set_fds (filter (λ x, x ≠ fd) (fds sh)) sh.

(** The status word of [waitpid] with [WUNTRACED]: exactly one of
    [WIFEXITED], [WIFSIGNALED], [WIFSTOPPED] holds. *)
Inductive wstatus :=
  | WEXITED (code : Z)
  | WSIGNALED (sig : Z)
  | WSTOPPED (sig : Z).

(** [atoi]: leading white space, an optional sign, then decimal digits up
    to the first other character.  C defines the result only inside the
    range of [int]; the model keeps the mathematical value. *)
Definition isspace (c : ascii) : bool :=
  bool_decide (c ∈ [" "; "009"; "010"; "011"; "012"; "013"]%char).

Definition digit_val (c : ascii) : option Z :=
  let n := Z.of_N (N_of_ascii c) in
  if bool_decide (48 ≤ n ≤ 57)%Z then Some (n - 48) else None.

Fixpoint atoi_digits (acc : Z) (s : string) : Z :=
  match s with
  | String c s' =>
      match digit_val c with
      | Some d => atoi_digits (10 * acc + d) s'
      | None => acc
      end
  | EmptyString => acc
  end.

Fixpoint skip_space (s : string) : string :=
  match s with
  | String c s' => if isspace c then skip_space s' else s
  | EmptyString => s
  end.

Definition atoi (s : string) : Z :=
  match skip_space s with
  | String "-" s' => - atoi_digits 0 s'
  | String "+" s' => atoi_digits 0 s'
  | s' => atoi_digits 0 s'
  end.

(** The successive results of [strtok(s, delim)], [strtok(NULL, delim)],
    ... until NULL: the maximal runs of characters outside [delim]. *)
Fixpoint strtok_from (delim : list ascii) (cur : string) (s : string)
    : list string :=
  match s with
  | EmptyString => if decide (cur = "") then [] else [cur]
  | String c s' =>
      if decide (c ∈ delim) then
        (if decide (cur = "") then strtok_from delim "" s'
         else cur :: strtok_from delim "" s')
      else strtok_from delim (cur +:+ String c "") s'
  end.

Definition strtok (delim : list ascii) (s : string) : list string :=
  strtok_from delim "" s.

(** The delimiter string [" \t\r\n"]. *)
Definition blanks : list ascii := [" "; "009"; "013"; "010"]%char.

(** [s[strcspn(s, "\n")] = 0]: cut at the first newline. *)
Fixpoint cut_newline (s : string) : string :=
  match s with
  | EmptyString => ""
  | String c s' => if decide (c = "010"%char) then "" else String c (cut_newline s')
  end.

(** [p = strchr(last, '&'); if (p) *p = ' ']. *)
Fixpoint blank_amp (s : string) : string :=
  match s with
  | EmptyString => ""
  | String c s' => if decide (c = "&"%char) then String " " s' else String c (blank_amp s')
  end.

(** ** The reaper

    [evs] is what the successive calls
    [waitpid(-1, &status, WNOHANG | WUNTRACED)] answer; the loop stops at
    the first answer that is not positive, and when nothing is left the
    kernel answers 0 or -1.  A child reported as exited or killed is waited
    for: the kernel forgets it. *)
Fixpoint sigchld_handler (evs : list (Z * wstatus)) (sh : shell) : shell :=
  match evs with
  | [] => sh
  | (p, status) :: evs' =>
      if decide (p > 0) then
        match status with
        | WEXITED _ | WSIGNALED _ =>
            let sh := set_children (children sh ∖ {[p]}) sh in
            sigchld_handler evs' (set_jobs (deletejob (jobs sh) p).2 sh)
        | WSTOPPED sig =>
            match getjobpid (jobs sh) p with
            | Some i =>
                match jobs sh !! i with
                | Some job =>
                    let job' := {| pid := pid job; jid := jid job;
                                   state := ST; cmdline := cmdline job |} in
                    let sh := set_jobs (<[i := job']> (jobs sh)) sh in
                    sigchld_handler evs'
                      (printf ("Job [" +:+ pretty (jid job') +:+ "] (" +:+
                               pretty (pid job') +:+ ") stopped by signal " +:+
                               pretty sig +:+ nl) sh)
                | None => sigchld_handler evs' sh
                end
            | None => sigchld_handler evs' sh
            end
        end
      else sh
  end.

(** ** The foreground wait

    While the shell sleeps in [waitfg] the rest of the system runs: the
    foreground job may set the terminal's modes, and the kernel delivers
    SIGCHLD when the signal is not blocked.  One [tick] is what happens
    during one [sleep(1)]. *)
Record tick := Tick {
  tk_modes : option termios;
  tk_events : list (Z * wstatus)
}.

Definition sleep (t : tick) (sh : shell) : shell :=
  let sh := match tk_modes t with
            | Some m => set_term_modes m sh
            | None => sh
            end in
  if sigchld_blocked sh then sh else sigchld_handler (tk_events t) sh.

(** [tcsetpgrp(shell_terminal, pid); job = getjobpid(jobs, pid);] *)
Definition waitfg_enter (p : Z) (sh : shell) : shell * option nat :=
  let sh := tcsetpgrp p sh in
  (sh, getjobpid (jobs sh) p).

(** [job != NULL && job->pid == pid && job->state == FG] *)
Definition waitfg_cond (job : option nat) (p : Z) (sh : shell) : bool :=
  match job with
  | None => false
  | Some i =>
      match jobs sh !! i with
      | Some j => bool_decide (pid j = p) && bool_decide (state j = FG)
      | None => false
      end
  end.

(** [tcsetpgrp(shell_terminal, shell_pgid);] *)
Definition waitfg_leave (sh : shell) : shell :=
  tcsetpgrp (shell_pgid sh) sh.

(** The loop; [None] when the job is still in the foreground after the
    last tick given. *)
Fixpoint waitfg_loop (env : list tick) (job : option nat) (p : Z)
    (sh : shell) : option shell :=
  if waitfg_cond job p sh then
    match env with
    | [] => None
    | t :: env' => waitfg_loop env' job p (sleep t sh)
    end
  else Some sh.

Definition waitfg (env : list tick) (p : Z) (sh : shell) : option shell :=
  let '(sh, job) := waitfg_enter p sh in
  waitfg_leave <$> waitfg_loop env job p sh.

(** ** Built-ins

    [waitfg] is the last statement of each of its callers, so a caller is
    translated up to that call and says how the shell goes on. *)
Inductive next :=
  | Return                (* back to the prompt *)
  | Waitfg (p : Z)        (* [waitfg(p)], then back to the prompt *)
  | Exit (code : Z).      (* [exit(code)] *)

Definition set_state (i : nat) (s : Z) (sh : shell) : shell :=
  match jobs sh !! i with
  | Some job =>
      set_jobs (<[i := {| pid := pid job; jid := jid job; state := s;
                          cmdline := cmdline job |}]> (jobs sh)) sh
  | None => sh
  end.

(** The first half of [do_bgfg]: the job the argument names, or the
    message printed when there is none. *)
Definition bgfg_job (id : string) (sh : shell) : shell + nat :=
  match id with
  | String "%" rest =>
      let k := atoi rest in
      match getjobjid (jobs sh) k with
      | Some i => inr i
      | None => inl (printf ("%" +:+ pretty k +:+ ": No such job" +:+ nl) sh)
      end
  | _ =>
      let p := atoi id in
      match getjobpid (jobs sh) p with
      | Some i => inr i
      | None =>
          inl (printf ("(" +:+ pretty p +:+ "): No such process" +:+ nl) sh)
      end
  end.

Definition do_bgfg (argv : list string) (sh : shell) : shell * next :=
  match argv !! 1%nat with
  | None => (printf ("requires PID or %jobid" +:+ nl) sh, Return)
  | Some id =>
      match bgfg_job id sh with
      | inl sh => (sh, Return)
      | inr i =>
          match jobs sh !! i with
          | None => (sh, Return)
          | Some job =>
              let sh := kill (- pid job) SIGCONT sh in
              if decide (argv !! 0%nat = Some "bg") then
                let sh := set_state i BG sh in
                (printf ("[" +:+ pretty (jid job) +:+ "] (" +:+
                         pretty (pid job) +:+ ") " +:+ cmdline job +:+ nl) sh,
                 Return)
              else
                (set_state i FG sh, Waitfg (pid job))
          end
      end
  end.

(** ** Launching a pipeline (the parent's side)

    What the kernel answers at stage [i]: the two ends of the pipe, or
    nothing when [pipe] fails; the value [fork] returns. *)
Record stage_os := StageOs {
  os_pipe : option (Z * Z);
  os_fork : Z
}.

(** The loop [for (i = 0; i < cmd_count; i++)], [n] iterations from [i].
    The result is the state with [Some group_leader_pid] when the loop ran
    to its end and with [None] when it left by [return].  The process for
    which [fork] returns 0 is the child, which [child] below follows; the
    parent has no continuation there. *)
Fixpoint launch_stages (os : nat → stage_os) (cmd_count : nat) (n i : nat)
    (prev_pipe_read group_leader_pid : Z) (sh : shell)
    : option (shell * option Z) :=
  match n with
  | O => Some (sh, Some group_leader_pid)
  | S n' =>
      let piped :=
        if decide (i < cmd_count - 1)%nat then
          match os_pipe (os i) with
          | None => inl (perror "pipe" sh)
          | Some (r, w) => inr (set_fds (fds sh ++ [r; w]) sh, r, w)
          end
        else inr (sh, 0, 0) in
      match piped with
      | inl sh => Some (sh, None)
      | inr (sh, r, w) =>
          let p := os_fork (os i) in
          if decide (p < 0) then Some (perror "fork" sh, None)
          else if decide (p = 0) then None
          else
            let sh := set_children (children sh ∪ {[p]}) sh in
            let group_leader_pid :=
              if decide (i = 0%nat) then p else group_leader_pid in
            let sh := setpgid p group_leader_pid sh in
            let sh := if decide (prev_pipe_read ≠ STDIN_FILENO)
                      then close prev_pipe_read sh else sh in
            if decide (i < cmd_count - 1)%nat then
              launch_stages os cmd_count n' (S i) r group_leader_pid
                (close w sh)
            else
              launch_stages os cmd_count n' (S i) prev_pipe_read
                group_leader_pid sh
      end
  end.

(** The stages of a command line, as [process_pipeline] cuts them; with
    [bg] the first [&] of the last stage is blanked. *)
Definition split_commands (cmdline : string) (bg : bool) : list string :=
  let commands := take MAX_COMMANDS (strtok ["|"%char] (cut_newline cmdline)) in
  if bg then
    match commands with
    | [] => commands
    | _ => <[(length commands - 1)%nat :=
               blank_amp (List.last commands "")]> commands
    end
  else commands.

(** [process_pipeline] up to its call of [waitfg].  With [bg] and no stage
    at all the source reads [commands[-1]]: no result. *)
Definition process_pipeline (os : nat → stage_os) (cmdline : string)
    (bg : bool) (sh : shell) : option (shell * next) :=
  let commands := split_commands cmdline bg in
  let cmd_count := length commands in
  if bg && bool_decide (cmd_count = 0%nat) then None
  else
    let prev := sigchld_blocked sh in
    let sh := set_sigchld_blocked true sh in
    match launch_stages os cmd_count cmd_count 0 STDIN_FILENO 0 sh with
    | None => None
    | Some (sh, None) => Some (sh, Return)
    | Some (sh, Some group_leader_pid) =>
        let '(_, tbl, nj) :=
          addjob (jobs sh) (next_jid sh) group_leader_pid
            (if bg then BG else FG) cmdline in
        let sh := set_next_jid nj (set_jobs tbl sh) in
        let sh := set_sigchld_blocked prev sh in
        if bg then
          Some (printf ("[" +:+ pretty (pid2jid (jobs sh) group_leader_pid) +:+
                        "] (" +:+ pretty group_leader_pid +:+ ") " +:+
                        cmdline +:+ nl) sh, Return)
        else Some (sh, Waitfg group_leader_pid)
    end.

(** [eval] up to a call of [waitfg].  [argv] has [MAX_ARGS] cells and the
    loop that fills it has no bound: with 64 words or more [argv[argc]]
    lies outside the array, and there is no result. *)
Definition eval (os : nat → stage_os) (cmdline : string) (sh : shell)
    : option (shell * next) :=
  let argv := strtok blanks cmdline in
  let argc := length argv in
  if decide (MAX_ARGS ≤ argc)%nat then None
  else
    match argv with
    | [] => Some (sh, Return)
    | a0 :: _ =>
        if decide (a0 = "exit") then Some (sh, Exit 0)
        else if decide (a0 = "jobs") then
          Some (set_out (out sh ++ listjobs (jobs sh)) sh, Return)
        else if decide (a0 = "bg" ∨ a0 = "fg") then Some (do_bgfg argv sh)
        else
          process_pipeline os cmdline
            (bool_decide (List.last argv "" = "&")) sh
    end.

(** What follows a call: nothing, or the foreground wait. *)
Definition finish (env : list tick) (r : shell * next) : option shell :=
  match r.2 with
  | Waitfg p => waitfg env p r.1
  | _ => Some r.1
  end.

(** [main] before its loop, for a shell that already is the terminal's
    foreground group: [self] is what [getpid] answers and [tm] the modes
    [tcgetattr] reads. *)
Definition startup (self : Z) (tm : termios) : shell :=
  {| jobs := initjobs jobs_static; next_jid := 1;
     shell_pgid := self; shell_tmodes := tm;
     term_pgrp := self; term_modes := tm;
     sigchld_blocked := false; fds := []; pgrps := [(self, self)];
     kills := []; children := ∅; out := []; err := [] |}.

(** ** A stage (the child's side)

    The child has its own copy of the descriptor table.  What a descriptor
    is connected to: *)
Inductive file :=
  | Inherited (fd : Z)       (* what the shell had at [fd] when it started *)
  | PipeRead (k : nat)       (* read end of the pipe made at stage [k] *)
  | PipeWrite (k : nat)      (* write end of the pipe made at stage [k] *)
  | Opened (path : string) (flags : Z) (mode : option Z).

(** The flags of <fcntl.h>, with their Linux values. *)
Definition O_RDONLY : Z := 0.
Definition O_WRONLY : Z := 1.
Definition O_CREAT : Z := 64.
Definition O_TRUNC : Z := 512.
Definition O_APPEND : Z := 1024.

(** The octal literal [0644]. *)
Definition mode_0644 : Z := 6 * 64 + 4 * 8 + 4.

Record proc := Proc {
  fdt : gmap Z file;        (* descriptor table *)
  opens : list bool;        (* whether each coming [open] succeeds *)
  c_out : list string;      (* written to stdout *)
  c_err : list string       (* written to stderr *)
}.

(** The lowest descriptor not in use, which [open] returns. *)
Definition lowest_free (t : gmap Z file) : Z :=
  from_option snd 0
    (list_find (λ n, t !! n = None) (seqZ 0 (Z.of_nat (size t) + 1))).

(** [open(path, flags, mode)]: -1 on failure (also when [opens] has no
    answer left), else the new descriptor. *)
Definition os_open (path : string) (flags : Z) (mode : option Z) (p : proc)
    : Z * proc :=
  match opens p with
  | true :: rest =>
      let fd := lowest_free (fdt p) in
      (fd, Proc (<[fd := Opened path flags mode]> (fdt p)) rest
             (c_out p) (c_err p))
  | false :: rest => (-1, Proc (fdt p) rest (c_out p) (c_err p))
  | [] => (-1, p)
  end.

(** [dup2(oldfd, newfd)]: nothing happens when [oldfd] is not open. *)
Definition dup2 (oldfd newfd : Z) (p : proc) : proc :=
  match fdt p !! oldfd with
  | Some f => Proc (<[newfd := f]> (fdt p)) (opens p) (c_out p) (c_err p)
  | None => p
  end.

Definition c_close (fd : Z) (p : proc) : proc :=
  Proc (delete fd (fdt p)) (opens p) (c_out p) (c_err p).

Definition c_printf (s : string) (p : proc) : proc :=
  Proc (fdt p) (opens p) (c_out p ++ [s]) (c_err p).

Definition c_perror (s : string) (p : proc) : proc :=
  Proc (fdt p) (opens p) (c_out p) (c_err p ++ [s]).

(** A cell of [char *args[MAX_ARGS]]: NULL or a word. *)
Definition cell := option string.

(** [while (token && i < MAX_ARGS - 1) { args[i++] = token; token = ... }]
    over the tokens still to come. *)
Fixpoint fill_args (toks : list string) (i : nat) (args : list cell)
    : list cell * nat :=
  match toks with
  | tok :: toks' =>
      if decide (i < MAX_ARGS - 1)%nat
      then fill_args toks' (S i) (<[i := Some tok]> args)
      else (args, i)
  | [] => (args, i)
  end.

(** The words of a NULL-terminated array, which is how [execvp] reads it. *)
Fixpoint c_argv (args : list cell) : list string :=
  match args with
  | Some w :: rest => w :: c_argv rest
  | _ => []
  end.

(** [while (args[j+2] != NULL) { args[j] = args[j+2]; j++; }].  A read
    outside the array has no result, and neither has a loop that outlives
    [fuel]. *)
Fixpoint shift_args (fuel : nat) (args : list cell) (j : nat)
    : option (list cell * nat) :=
  match fuel with
  | O => None
  | S fuel' =>
      match args !! (j + 2)%nat with
      | None => None
      | Some None => Some (args, j)
      | Some (Some w) => shift_args fuel' (<[j := Some w]> args) (S j)
      end
  end.

(** The three operators of [handle_redirections]. *)
Inductive redir := RedirIn | RedirOut | RedirAppend.

Global Instance redir_eq_dec : EqDecision redir.
Proof. solve_decision. Defined.

Definition redir_of (w : string) : option redir :=
  if decide (w = "<") then Some RedirIn
  else if decide (w = ">") then Some RedirOut
  else if decide (w = ">>") then Some RedirAppend
  else None.

Definition redir_open (r : redir) (path : string) (p : proc) : Z * proc :=
  match r with
  | RedirIn => os_open path O_RDONLY None p
  | RedirOut =>
      os_open path (Z.lor (Z.lor O_WRONLY O_CREAT) O_TRUNC) (Some mode_0644) p
  | RedirAppend =>
      os_open path (Z.lor (Z.lor O_WRONLY O_CREAT) O_APPEND) (Some mode_0644) p
  end.

Definition redir_msg (r : redir) : string :=
  match r with
  | RedirIn => "open <"
  | RedirOut => "open >"
  | RedirAppend => "open >>"
  end.

(** What [handle_redirections] hands back: its result, the array and the
    two descriptors it writes through its pointers. *)
Record redirected := Redirected {
  rd_ret : Z;
  rd_args : list cell;
  rd_in : Z;
  rd_out : Z;
  rd_proc : proc
}.

(** The loop [while (args[i] != NULL)] from index [i]. *)
Fixpoint redirections_from (fuel : nat) (args : list cell) (i : nat)
    (in_fd out_fd : Z) (p : proc) : option redirected :=
  match fuel with
  | O => None
  | S fuel' =>
      match args !! i with
      | None => None
      | Some None => Some (Redirected 0 args in_fd out_fd p)
      | Some (Some w) =>
          match redir_of w with
          | None => redirections_from fuel' args (S i) in_fd out_fd p
          | Some r =>
              match args !! (i + 1)%nat with
              | None => None
              | Some None => Some (Redirected (-1) args in_fd out_fd p)
              | Some (Some path) =>
                  let '(fd, p) := redir_open r path p in
                  if decide (fd < 0) then
                    Some (Redirected (-1) args in_fd out_fd
                            (c_perror (redir_msg r) p))
                  else
                    let in_fd := match r with RedirIn => fd | _ => in_fd end in
                    let out_fd := match r with RedirIn => out_fd | _ => fd end in
                    match shift_args MAX_ARGS args i with
                    | None => None
                    | Some (args, j) =>
                        redirections_from fuel'
                          (<[(j + 1)%nat := None]> (<[j := None]> args)) i
                          in_fd out_fd p
                    end
              end
          end
      end
  end.

Definition handle_redirections (args : list cell) (in_fd out_fd : Z)
    (p : proc) : option redirected :=
  redirections_from (S MAX_ARGS) args 0 in_fd out_fd p.

(** How a stage ends: it becomes the program, or it exits. *)
Inductive ended :=
  | Exec (argv : list string)
  | Exited (code : Z).

(** [parse_and_execute_stage].  [args0] is what the cells of [args] hold
    before the function writes them, and [found] says whether [execvp]
    finds the program.  After the redirections [args[0]] can be NULL;
    [execvp] and [%s] are then given a null pointer: no result. *)
Definition parse_and_execute_stage (found : string → bool)
    (args0 : list cell) (cmd_segment : string) (in_fd out_fd : Z) (p : proc)
    : option (ended * proc) :=
  let '(args, i) := fill_args (strtok blanks cmd_segment) 0 args0 in
  let args := <[i := None]> args in
  match args !! 0%nat with
  | None => None
  | Some None => Some (Exited 0, p)
  | Some (Some _) =>
      match handle_redirections args in_fd out_fd p with
      | None => None
      | Some rd =>
          if decide (rd_ret rd < 0) then Some (Exited 1, rd_proc rd)
          else
            let p := rd_proc rd in
            let p := if decide (rd_in rd ≠ -1)
                     then c_close (rd_in rd) (dup2 (rd_in rd) STDIN_FILENO p)
                     else p in
            let p := if decide (rd_out rd ≠ -1)
                     then c_close (rd_out rd) (dup2 (rd_out rd) STDOUT_FILENO p)
                     else p in
            match rd_args rd !! 0%nat with
            | Some (Some prog) =>
                if found prog then Some (Exec (c_argv (rd_args rd)), p)
                else Some (Exited 1,
                           c_printf (prog +:+ ": Command not found" +:+ nl) p)
            | _ => None
            end
      end
  end.

(** The child's branch of [process_pipeline] at stage [i], from the pipe
    wiring on; the calls before it ([sigprocmask], [setpgid], [tcsetpgrp],
    [signal]) leave the descriptor table alone.  First the two blocks
    "Input wiring" and "Output wiring": *)
Definition pipe_wiring (cmd_count i : nat) (prev_pipe_read : Z)
    (pipefd : Z * Z) (p : proc) : proc :=
  let p := if decide (prev_pipe_read ≠ STDIN_FILENO)
           then c_close prev_pipe_read (dup2 prev_pipe_read STDIN_FILENO p)
           else p in
  if decide (i < cmd_count - 1)%nat
  then c_close pipefd.1 (c_close pipefd.2 (dup2 pipefd.2 STDOUT_FILENO p))
  else p.

Definition child (found : string → bool) (args0 : list cell)
    (commands : list string) (i : nat) (prev_pipe_read : Z) (pipefd : Z * Z)
    (p : proc) : option (ended * proc) :=
  let p := pipe_wiring (length commands) i prev_pipe_read pipefd p in
  match commands !! i with
  | None => None
  | Some cmd => parse_and_execute_stage found args0 cmd (-1) (-1) p
  end.

(** ** A stage, read as a list of words

    The spec speaks of a word list and of redirection specs.  These are
    the same notions on lists, against which the array code above is
    compared. *)

(** The words that are left when every operator and the word after it
    are taken out. *)
Fixpoint strip_redirs (ws : list string) : list string :=
  match ws with
  | [] => []
  | w :: rest =>
      match redir_of w with
      | None => w :: strip_redirs rest
      | Some _ =>
          match rest with
          | [] => []
          | _ :: rest' => strip_redirs rest'
          end
      end
  end.

(** The redirections of a word list, in order: operator and file name. *)
Fixpoint redirections_of (ws : list string) : list (redir * string) :=
  match ws with
  | [] => []
  | w :: rest =>
      match redir_of w with
      | None => redirections_of rest
      | Some r =>
          match rest with
          | [] => []
          | path :: rest' => (r, path) :: redirections_of rest'
          end
      end
  end.

(** Whether the list ends in an operator that has no file name. *)
Fixpoint dangling (ws : list string) : bool :=
  match ws with
  | [] => false
  | w :: rest =>
      match redir_of w with
      | None => dangling rest
      | Some _ =>
          match rest with
          | [] => true
          | _ :: rest' => dangling rest'
          end
      end
  end.

(** Opening the files of the redirections one after the other, up to the
    first that fails. *)
Fixpoint run_redirs (rs : list (redir * string)) (in_fd out_fd : Z) (p : proc)
    : bool * Z * Z * proc :=
  match rs with
  | [] => (true, in_fd, out_fd, p)
  | (r, path) :: rs' =>
      let '(fd, p) := redir_open r path p in
      if decide (fd < 0) then (false, in_fd, out_fd, c_perror (redir_msg r) p)
      else run_redirs rs'
             (match r with RedirIn => fd | _ => in_fd end)
             (match r with RedirIn => out_fd | _ => fd end) p
  end.

(** The file the last input redirection names, and the last output
    redirection. *)
Definition last_in (rs : list (redir * string)) : option string :=
  snd <$> last (filter (λ x, x.1 = RedirIn) rs).

Definition last_out (rs : list (redir * string)) : option (redir * string) :=
  last (filter (λ x, x.1 ≠ RedirIn) rs).

(** What a descriptor opened by a redirection is connected to. *)
Definition redir_file (r : redir) (path : string) : file :=
  match r with
  | RedirIn => Opened path O_RDONLY None
  | RedirOut =>
      Opened path (Z.lor (Z.lor O_WRONLY O_CREAT) O_TRUNC) (Some mode_0644)
  | RedirAppend =>
      Opened path (Z.lor (Z.lor O_WRONLY O_CREAT) O_APPEND) (Some mode_0644)
  end.

(** A stage on its word list: the redirections are opened, the standard
    streams are pointed at the files, and the remaining words are handed
    to the program lookup. *)
Definition stage_on_words (found : string → bool) (ws : list string)
    (in_fd out_fd : Z) (p : proc) : option (ended * proc) :=
  match ws with
  | [] => Some (Exited 0, p)
  | _ =>
      let '(ok, i, o, p) := run_redirs (redirections_of ws) in_fd out_fd p in
      if ok && negb (dangling ws) then
        let p := if decide (i ≠ -1)
                 then c_close i (dup2 i STDIN_FILENO p) else p in
        let p := if decide (o ≠ -1)
                 then c_close o (dup2 o STDOUT_FILENO p) else p in
        match strip_redirs ws with
        | prog :: _ =>
            if found prog then Some (Exec (strip_redirs ws), p)
            else Some (Exited 1,
                       c_printf (prog +:+ ": Command not found" +:+ nl) p)
        | [] => None
        end
      else Some (Exited 1, p)
  end.

(** ** The shell as a transition system

    [eval] and [do_bgfg] above are the code as it runs when nothing
    interrupts it.  The program blocks SIGCHLD in one place only, inside
    [process_pipeline] from [sigprocmask(SIG_BLOCK)] to
    [sigprocmask(SIG_SETMASK)]; everywhere else the handler can run
    between two statements of the main flow.  The transition system cuts
    the main flow wherever it reads or writes the job table ([mode] names
    the places) and lets the rest of the system move in between
    ([sleep]: the terminal, the handler).  [w_added] lists the job ids
    found in the slots that [addjob] has filled, oldest first. *)

(** [process_pipeline] up to and including its second [sigprocmask]:
    the state, with the group leader when the loop ran to its end. *)
Definition launch (os : nat → stage_os) (cmdline : string) (bg : bool)
    (sh : shell) : option (shell * option Z) :=
  let commands := split_commands cmdline bg in
  let cmd_count := length commands in
  if bg && bool_decide (cmd_count = 0%nat) then None
  else
    let prev := sigchld_blocked sh in
    let sh := set_sigchld_blocked true sh in
    match launch_stages os cmd_count cmd_count 0 STDIN_FILENO 0 sh with
    | None => None
    | Some (sh, None) => Some (sh, None)
    | Some (sh, Some group_leader_pid) =>
        let '(_, tbl, nj) :=
          addjob (jobs sh) (next_jid sh) group_leader_pid
            (if bg then BG else FG) cmdline in
        let sh := set_next_jid nj (set_jobs tbl sh) in
        Some (set_sigchld_blocked prev sh, Some group_leader_pid)
    end.

(** Where the main flow stands. *)
Inductive mode :=
  | Loop                               (* [main], top of the loop *)
  | Prompt                             (* [main], inside [fgets] *)
  | Listing (i : nat)                  (* [listjobs], at the test of slot [i] *)
  | Listing_ids (i : nat)              (* before [printf] of jid and pid *)
  | Listing_state (i : nat)            (* before the tests of [state] *)
  | Listing_cmd (i : nat)              (* before [printf] of the command *)
  | Bgfg_found (bg : bool) (i : nat)   (* [do_bgfg] has [job]; before [kill] *)
  | Bgfg_killed (bg : bool) (i : nat)  (* before [job->state = ...] *)
  | Bgfg_set (bg : bool) (i : nat)     (* before [printf] or [waitfg(job->pid)] *)
  | Launched (leader : Z) (cmdline : string)
                                       (* background launch; before [printf] *)
  | Wait_call (p : Z)                  (* [waitfg(p)]; before [tcsetpgrp] *)
  | Wait_lookup (p : Z)                (* before [getjobpid] *)
  | Waiting (job : option nat) (p : Z) (* at the test of the loop *)
  | Wait_leave                         (* loop left; before [tcsetpgrp] *)
  | Gone.                              (* after [exit] *)

Record world := World {
  w_shell : shell;
  w_mode : mode;
  w_added : list Z
}.

(** What the kernel guarantees of [fork] in the parent: never 0, and a
    process id that no child still to be waited for has, nor another child
    of the same launch. *)
Definition kernel_ok (sh : shell) (os : nat → stage_os) : Prop :=
  ∀ i, os_fork (os i) ≠ 0 ∧
       (0 < os_fork (os i) →
        (os_fork (os i) ∉ children sh) ∧
        (∀ k, os_fork (os k) = os_fork (os i) → k = i)).

(** The job ids a call has put into the table: those of the slots that
    were empty before it and hold a job after it. *)
Definition added_by (tbl tbl' : list job_t) : list Z :=
  omap (λ jj : job_t * job_t,
          if decide (pid jj.1 = 0 ∧ pid jj.2 ≠ 0) then Some (jid jj.2)
          else None) (zip tbl tbl').

(** [eval] from the line to the first place where the handler can make a
    difference: the line is cut into words, a built-in is recognised,
    [do_bgfg] looks its job up, a pipeline is launched under the mask. *)
Definition eval_start (os : nat → stage_os) (cmdline : string) (sh : shell)
    : option (shell * mode) :=
  let argv := strtok blanks cmdline in
  let argc := length argv in
  if decide (MAX_ARGS ≤ argc)%nat then None
  else
    match argv with
    | [] => Some (sh, Loop)
    | a0 :: _ =>
        if decide (a0 = "exit") then Some (sh, Gone)
        else if decide (a0 = "jobs") then Some (sh, Listing 0)
        else if decide (a0 = "bg" ∨ a0 = "fg") then
          match argv !! 1%nat with
          | None => Some (printf ("requires PID or %jobid" +:+ nl) sh, Loop)
          | Some id =>
              match bgfg_job id sh with
              | inl sh => Some (sh, Loop)
              | inr i => Some (sh, Bgfg_found (bool_decide (a0 = "bg")) i)
              end
          end
        else
          let bg := bool_decide (List.last argv "" = "&") in
          match launch os cmdline bg sh with
          | None => None
          | Some (sh, None) => Some (sh, Loop)
          | Some (sh, Some leader) =>
              Some (sh, if bg then Launched leader cmdline
                        else Wait_call leader)
          end
    end.

(** The statement of the main flow at each place, and the place it leads
    to.  In [Waiting] with the condition true the statement is
    [sleep(1)], during which time passes ([step_tick] below). *)
Definition main_step (md : mode) (sh : shell) : option (shell * mode) :=
  match md with
  | Loop => Some (printf "tsh> " sh, Prompt)
  | Prompt | Gone => None
  | Listing i =>
      if decide (i < MAX_JOBS)%nat then
        match jobs sh !! i with
        | Some j => Some (sh, if decide (pid j ≠ 0) then Listing_ids i
                              else Listing (S i))
        | None => None
        end
      else Some (sh, Loop)
  | Listing_ids i =>
      match jobs sh !! i with
      | Some j => Some (printf ("[" +:+ pretty (jid j) +:+ "] (" +:+
                                pretty (pid j) +:+ ") ") sh, Listing_state i)
      | None => None
      end
  | Listing_state i =>
      match jobs sh !! i with
      | Some j => Some (printf (if decide (state j = BG) then "Running "
                                else if decide (state j = FG)
                                     then "Foreground "
                                     else "Stopped ") sh, Listing_cmd i)
      | None => None
      end
  | Listing_cmd i =>
      match jobs sh !! i with
      | Some j => Some (printf (cmdline j +:+ nl) sh, Listing (S i))
      | None => None
      end
  | Bgfg_found bg i =>
      match jobs sh !! i with
      | Some j => Some (kill (- pid j) SIGCONT sh, Bgfg_killed bg i)
      | None => None
      end
  | Bgfg_killed bg i => Some (set_state i (if bg then BG else FG) sh,
                              Bgfg_set bg i)
  | Bgfg_set bg i =>
      match jobs sh !! i with
      | Some j =>
          if bg then
            Some (printf ("[" +:+ pretty (jid j) +:+ "] (" +:+
                          pretty (pid j) +:+ ") " +:+ cmdline j +:+ nl) sh,
                  Loop)
          else Some (sh, Wait_call (pid j))
      | None => None
      end
  | Launched leader cmdline =>
      Some (printf ("[" +:+ pretty (pid2jid (jobs sh) leader) +:+ "] (" +:+
                    pretty leader +:+ ") " +:+ cmdline +:+ nl) sh, Loop)
  | Wait_call p => Some (tcsetpgrp p sh, Wait_lookup p)
  | Wait_lookup p => Some (sh, Waiting (getjobpid (jobs sh) p) p)
  | Waiting job p =>
      Some (sh, if waitfg_cond job p sh then Waiting job p else Wait_leave)
  | Wait_leave => Some (waitfg_leave sh, Loop)
  end.

(** What a list of entries of [out] puts on the stream. *)
Definition written (l : list string) : string := foldr append "" l.

(** The place a call leaves the main flow at, as the functions above
    report it. *)
Definition after (nx : next) : mode :=
  match nx with
  | Return => Loop
  | Waitfg p => Wait_call p
  | Exit _ => Gone
  end.

(** [step_line]: [fgets] returns a line ([failed]: it returned NULL on a
    read error, and [eval] gets what the buffer holds).  [step_eof]: end
    of input.  [step_main]: the next statement of the main flow.
    [step_tick]: the rest of the system moves; this is where the handler
    runs, unless SIGCHLD is blocked. *)
Inductive step : world → world → Prop :=
  | step_line os cmdline (failed : bool) sh sh' md added :
      next_jid sh < INT_MAX →
      kernel_ok sh os →
      eval_start os cmdline
        (if failed then perror "fgets error" sh else sh) = Some (sh', md) →
      step (World sh Prompt added)
           (World sh' md (added ++ added_by (jobs sh) (jobs sh')))
  | step_eof sh added :
      step (World sh Prompt added) (World (printf nl sh) Gone added)
  | step_main sh md sh' md' added :
      main_step md sh = Some (sh', md') →
      step (World sh md added) (World sh' md' added)
  | step_tick t sh md added :
      md ≠ Gone →
      step (World sh md added) (World (sleep t sh) md added).

Definition reachable (self : Z) (tm : termios) (w : world) : Prop :=
  rtc step (World (startup self tm) Loop []) w.

(** *** Running the transition system

    A schedule says who moves next.  [Line p cmdline] is a line read by
    [fgets] without error, in a kernel that gives the children of the
    launch the process ids [p], [p + 1], ... and whose [pipe] fails;
    [p] must be positive and above every child not yet waited for, which
    makes the answers obey [kernel_ok]. *)
Inductive move :=
  | Line (p : Z) (cmdline : string)
  | Eof
  | Main
  | Tock (t : tick).

Definition fresh_pids (p : Z) : nat → stage_os :=
  λ i, StageOs None (p + Z.of_nat i).

Definition is_gone (md : mode) : bool :=
  match md with Gone => true | _ => false end.

Definition is_prompt (md : mode) : bool :=
  match md with Prompt => true | _ => false end.

Fixpoint run (ms : list move) (w : world) : option world :=
  match ms with
  | [] => Some w
  | m :: ms' =>
      let sh := w_shell w in
      match m with
      | Line p cmdline =>
          if is_prompt (w_mode w) &&
             bool_decide (next_jid sh < INT_MAX ∧ 0 < p ∧
                          set_Forall (λ c, c < p) (children sh)) then
            match eval_start (fresh_pids p) cmdline sh with
            | Some (sh', md) =>
                run ms' (World sh' md
                           (w_added w ++ added_by (jobs sh) (jobs sh')))
            | None => None
            end
          else None
      | Eof =>
          if is_prompt (w_mode w)
          then run ms' (World (printf nl sh) Gone (w_added w))
          else None
      | Main =>
          match main_step (w_mode w) sh with
          | Some (sh', md') => run ms' (World sh' md' (w_added w))
          | None => None
          end
      | Tock t =>
          if is_gone (w_mode w) then None
          else run ms' (World (sleep t sh) (w_mode w) (w_added w))
      end
  end.


(** ** What every reachable state satisfies *)

(** The table: 16 slots; an empty slot has pid 0 and jid 0; a live slot
    holds a child not yet waited for and a job id already given out; no
    two slots hold the same live pid or the same live jid. *)
Definition table_ok (sh : shell) : Prop :=
  length (jobs sh) = MAX_JOBS ∧
  1 ≤ next_jid sh ∧
  (∀ i j, jobs sh !! i = Some j →
     (pid j = 0 ∧ jid j = 0) ∨
     (pid j ≠ 0 ∧ pid j ∈ children sh ∧ 1 ≤ jid j < next_jid sh)) ∧
  (∀ i i' j j', jobs sh !! i = Some j → jobs sh !! i' = Some j' →
     pid j ≠ 0 → pid j = pid j' ∨ jid j = jid j' → i = i').

(** The job ids found in the slots filled so far: increasing, below the
    counter, and every live job has one of them. *)
Definition log_ok (sh : shell) (added : list Z) : Prop :=
  (∀ a b ka kb, added !! a = Some ka → added !! b = Some kb →
     (a < b)%nat → ka < kb) ∧
  Forall (λ k, k < next_jid sh) added ∧
  (∀ i j, jobs sh !! i = Some j → pid j ≠ 0 → jid j ∈ added).

(** Where a slot that holds a job may be in state FG: slot [i], holding
    process [p]. *)
Definition fg_slot (md : mode) (i : nat) (p : Z) : Prop :=
  match md with
  | Bgfg_set false k => i = k
  | Wait_call q | Wait_lookup q => p = q
  | Waiting job q => job = Some i ∧ p = q
  | _ => False
  end.

Definition fg_ok (tbl : list job_t) (md : mode) : Prop :=
  ∀ i j, tbl !! i = Some j → pid j ≠ 0 → state j = FG → fg_slot md i (pid j).

Definition world_ok (w : world) : Prop :=
  table_ok (w_shell w) ∧ log_ok (w_shell w) (w_added w) ∧
  fg_ok (jobs (w_shell w)) (w_mode w).

(** ** What the reaper can do to a state

    A slot after the reaper: as it was, cleared, or (for a slot that held
    a job) stopped. *)
Definition slot_reaped (j j' : job_t) : Prop :=
  j' = j ∨ j' = Job 0 0 UNDEF "" ∨
  (pid j ≠ 0 ∧ j' = Job (pid j) (jid j) ST (cmdline j)).

(** [sh'] differs from [sh] at most by slots cleared or stopped, by
    children waited for and by lines printed. *)
Definition reaped_from (sh sh' : shell) : Prop :=
  length (jobs sh') = length (jobs sh) ∧
  (∀ i j', jobs sh' !! i = Some j' →
     ∃ j, jobs sh !! i = Some j ∧ slot_reaped j j') ∧
  children sh' ⊆ children sh ∧
  next_jid sh' = next_jid sh ∧
  shell_pgid sh' = shell_pgid sh ∧
  shell_tmodes sh' = shell_tmodes sh ∧
  term_pgrp sh' = term_pgrp sh ∧
  term_modes sh' = term_modes sh ∧
  sigchld_blocked sh' = sigchld_blocked sh ∧
  fds sh' = fds sh ∧
  pgrps sh' = pgrps sh ∧
  kills sh' = kills sh ∧
  err sh' = err sh.

(** * Properties *)

(** ** Lemmas on the slot search *)

Lemma first_slot_Some (P : job_t → Prop) `{∀ j, Decision (P j)} jobs i :
  first_slot P jobs = Some i ↔
  (i < MAX_JOBS)%nat ∧
  (∃ j, jobs !! i = Some j ∧ P j) ∧
  (∀ k j, (k < i)%nat → jobs !! k = Some j → ¬ P j).
Proof.
  unfold first_slot. split.
  - intros Hf. destruct (list_find P (take MAX_JOBS jobs)) as [[i' x]|] eqn:E;
      simplify_eq/=.
    apply list_find_Some in E as (Hl & HP & Hmin).
    apply lookup_take_Some in Hl as [Hl Hlt].
    split; [done|]. split; [eauto|].
    intros k j Hk Hj. apply (Hmin k j); [|done].
    rewrite lookup_take_lt; [done|lia].
  - intros (Hlt & (j & Hj & HP) & Hmin).
    assert (list_find P (take MAX_JOBS jobs) = Some (i, j)) as ->; [|done].
    apply list_find_Some. split; [by rewrite lookup_take_lt|].
    split; [done|]. intros k y Hk Hlk.
    apply lookup_take_Some in Hk as [Hk _]. eauto.
Qed.

Lemma first_slot_None (P : job_t → Prop) `{∀ j, Decision (P j)} jobs :
  first_slot P jobs = None ↔
  (∀ k j, (k < MAX_JOBS)%nat → jobs !! k = Some j → ¬ P j).
Proof.
  unfold first_slot. split.
  - intros Hf k j Hk Hj.
    destruct (list_find P (take MAX_JOBS jobs)) as [[i' x]|] eqn:E;
      simplify_eq/=.
    apply list_find_None in E. rewrite Forall_lookup in E.
    apply (E k). by rewrite lookup_take_lt.
  - intros Hn.
    assert (list_find P (take MAX_JOBS jobs) = None) as ->; [|done].
    apply list_find_None, Forall_lookup. intros k j Hk.
    apply lookup_take_Some in Hk as [Hk Hlt]. eauto.
Qed.

Lemma first_slot_lt (P : job_t → Prop) `{∀ j, Decision (P j)} jobs i :
  first_slot P jobs = Some i → (i < MAX_JOBS)%nat.
Proof. intros Hf. by apply first_slot_Some in Hf as [? _]. Qed.

Lemma first_slot_lookup (P : job_t → Prop) `{∀ j, Decision (P j)} jobs i :
  first_slot P jobs = Some i → ∃ j, jobs !! i = Some j ∧ P j.
Proof. intros Hf. by apply first_slot_Some in Hf as (_ & ? & _). Qed.


(** ** The job table: [addjob] and [deletejob] *)

Lemma addjob_full tbl nj p s c :
  (∀ i j, tbl !! i = Some j → pid j ≠ 0) →
  addjob tbl nj p s c = (0, tbl, nj).
Proof.
  intros Hfull. unfold addjob. case_decide; [done|].
  destruct (first_slot _ tbl) as [i|] eqn:E; [|done].
  apply first_slot_lookup in E as (j & Hj & Hp). by destruct (Hfull i j).
Qed.

Lemma addjob_first tbl nj p s c i j :
  1 ≤ p → (i < MAX_JOBS)%nat →
  tbl !! i = Some j → pid j = 0 →
  (∀ k j', (k < i)%nat → tbl !! k = Some j' → pid j' ≠ 0) →
  addjob tbl nj p s c = (1, <[i := Job p nj s c]> tbl, nj + 1).
Proof.
  intros Hp Hi Hj Hz Hmin. unfold addjob. case_decide; [lia|].
  assert (first_slot (λ j, pid j = 0) tbl = Some i) as ->; [|done].
  apply first_slot_Some. eauto 10.
Qed.

(** C10.  With a process id below 1 [addjob] and [deletejob] both return
    0 and hand back the table and the counter as they were; so
    [deletejob(jobs, 0)] clears nothing, although every empty slot holds
    pid 0. *)
Theorem addjob_deletejob_pid_below_1 (tbl : list job_t) (nj p s : Z)
    (c : string) :
  p < 1 →
  addjob tbl nj p s c = (0, tbl, nj) ∧ deletejob tbl p = (0, tbl).
Proof.
  intros Hp. unfold addjob, deletejob. by rewrite !decide_True by done.
Qed.

Lemma addjob_deletejob_pid_below_1_witness :
  0 < 1 ∧
  addjob (initjobs jobs_static) 1 0 FG "ls" = (0, initjobs jobs_static, 1) ∧
  deletejob (initjobs jobs_static) 0 = (0, initjobs jobs_static).
Proof.
  split; [lia|].
  apply (addjob_deletejob_pid_below_1 (initjobs jobs_static) 1 0 FG "ls").
  lia.
Defined.

(** C5, as the spec has it, fails: every slot of the fresh table is
    Undefined and still [addjob] refuses process id 0. *)
Lemma addjob_undefined_slot_refused :
  (∃ i j, initjobs jobs_static !! i = Some j ∧ state j = UNDEF) ∧
  (addjob (initjobs jobs_static) 1 0 FG "ls").1.1 = 0.
Proof. split; [by exists 0%nat, (Job 0 0 UNDEF "")|done]. Qed.

(** C5, amended.  For a process id of at least 1, a table of 16 slots and
    a counter below [INT_MAX] (where [next_jid++] is the successor): if
    some slot is empty (its pid is 0, which is what [addjob] tests), the
    first such slot receives the given pid, state and command line with
    the current [next_jid] as its job id, the counter goes up by one and
    the call returns 1; if every slot holds a pid other than 0, the call
    returns 0 and neither table nor counter changes. *)
Theorem addjob_first_empty_or_full (tbl : list job_t) (nj p s : Z)
    (c : string) :
  1 ≤ p → length tbl = MAX_JOBS → nj < INT_MAX →
  (∀ i j, tbl !! i = Some j → pid j = 0 →
      (∀ k j', (k < i)%nat → tbl !! k = Some j' → pid j' ≠ 0) →
      addjob tbl nj p s c = (1, <[i := Job p nj s c]> tbl, nj + 1)) ∧
  ((∃ i j, tbl !! i = Some j ∧ pid j = 0) → (addjob tbl nj p s c).1.1 = 1) ∧
  ((∀ i j, tbl !! i = Some j → pid j ≠ 0) →
      addjob tbl nj p s c = (0, tbl, nj)).
Proof.
  intros Hp Hlen _. split; [|split].
  - intros i j Hj Hz Hmin. eapply addjob_first; eauto.
    apply lookup_lt_Some in Hj. lia.
  - intros (i & j & Hj & Hz). unfold addjob. case_decide; [lia|].
    destruct (first_slot _ tbl) as [k|] eqn:E; [done|].
    eapply first_slot_None in E; [by destruct E| |exact Hj].
    apply lookup_lt_Some in Hj. lia.
  - apply addjob_full.
Qed.

Lemma addjob_first_empty_or_full_witness :
  addjob (<[0%nat := Job 7 1 BG "a"]> (initjobs jobs_static)) 2 9 FG "b" =
    (1, <[1%nat := Job 9 2 FG "b"]>
          (<[0%nat := Job 7 1 BG "a"]> (initjobs jobs_static)), 3).
Proof.
  pose proof (addjob_first_empty_or_full
    (<[0%nat := Job 7 1 BG "a"]> (initjobs jobs_static)) 2 9 FG "b") as H.
  destruct H as (H & _ & _); [lia|reflexivity|unfold INT_MAX; lia|].
  apply (H 1%nat (Job 0 0 UNDEF "")); [reflexivity|reflexivity|].
  intros k j' Hk Hj'. destruct k as [|k]; [|lia].
  simpl in Hj'. injection Hj' as <-. simpl. lia.
Defined.

Lemma deletejob_first tbl p i j :
  1 ≤ p → (i < MAX_JOBS)%nat →
  tbl !! i = Some j → pid j = p →
  (∀ k j', (k < i)%nat → tbl !! k = Some j' → pid j' ≠ p) →
  deletejob tbl p = (1, <[i := clearjob j]> tbl).
Proof.
  intros Hp Hi Hj Hz Hmin. unfold deletejob. case_decide; [lia|].
  assert (first_slot (λ j, pid j = p) tbl = Some i) as ->.
  { apply first_slot_Some. eauto 10. }
  by rewrite Hj.
Qed.

Lemma deletejob_absent tbl p :
  (∀ i j, tbl !! i = Some j → pid j ≠ p) →
  deletejob tbl p = (0, tbl).
Proof.
  intros Habs. unfold deletejob. case_decide; [done|].
  destruct (first_slot _ tbl) as [i|] eqn:E; [|done].
  apply first_slot_lookup in E as (j & Hj & Hp). by destruct (Habs i j).
Qed.

Lemma getjobpid_first tbl p i j :
  (i < MAX_JOBS)%nat → tbl !! i = Some j → pid j = p →
  (∀ k j', (k < i)%nat → tbl !! k = Some j' → pid j' ≠ p) →
  getjobpid tbl p = Some i.
Proof. intros. apply first_slot_Some. eauto 10. Qed.

Lemma getjobpid_absent tbl p :
  (∀ i j, tbl !! i = Some j → pid j ≠ p) → getjobpid tbl p = None.
Proof. intros Habs. apply first_slot_None. eauto. Qed.

(** ** The reaper *)

Lemma sigchld_handler_app evs1 evs2 sh :
  Forall (λ e, 0 < e.1) evs1 →
  sigchld_handler (evs1 ++ evs2) sh =
  sigchld_handler evs2 (sigchld_handler evs1 sh).
Proof.
  intros Hpos. revert sh.
  induction Hpos as [|[p status] evs1 Hp _ IH]; intros sh; [done|].
  simpl in *. destruct (decide (p > 0)); [|lia].
  destruct status; try apply IH.
  destruct (getjobpid (jobs sh) p) as [i|]; [|apply IH].
  destruct (jobs sh !! i); apply IH.
Qed.

(** C4.  The reaper on a table of 16 slots, for an event about process
    [p] followed by the events [evs]:
    - exit or death by signal: the first slot whose pid is [p] is
      cleared, and if no slot has pid [p] the table stays as it is;
    - stop: the first slot whose pid is [p] gets state ST and the line
      "Job [jid] (pid) stopped by signal n" is printed; with no such slot
      nothing changes;
    - the loop then goes on with [evs], takes every event in turn, and
      ends when the kernel has nothing more to report (an empty list, or
      an answer that is not positive). *)
Theorem sigchld_handler_event (sh : shell) (p : Z) (evs : list (Z * wstatus)) :
  0 < p → length (jobs sh) = MAX_JOBS →
  (∀ status i j,
      (∃ n, status = WEXITED n ∨ status = WSIGNALED n) →
      jobs sh !! i = Some j → pid j = p →
      (∀ k j', (k < i)%nat → jobs sh !! k = Some j' → pid j' ≠ p) →
      sigchld_handler ((p, status) :: evs) sh =
      sigchld_handler evs
        (set_jobs (<[i := Job 0 0 UNDEF ""]> (jobs sh))
           (set_children (children sh ∖ {[p]}) sh))) ∧
  (∀ status,
      (∃ n, status = WEXITED n ∨ status = WSIGNALED n) →
      (∀ i j, jobs sh !! i = Some j → pid j ≠ p) →
      sigchld_handler ((p, status) :: evs) sh =
      sigchld_handler evs
        (set_jobs (jobs sh) (set_children (children sh ∖ {[p]}) sh))) ∧
  (∀ sig i j,
      jobs sh !! i = Some j → pid j = p →
      (∀ k j', (k < i)%nat → jobs sh !! k = Some j' → pid j' ≠ p) →
      sigchld_handler ((p, WSTOPPED sig) :: evs) sh =
      sigchld_handler evs
        (printf ("Job [" +:+ pretty (jid j) +:+ "] (" +:+ pretty (pid j) +:+
                 ") stopped by signal " +:+ pretty sig +:+ nl)
           (set_jobs (<[i := Job (pid j) (jid j) ST (cmdline j)]> (jobs sh))
              sh))) ∧
  (∀ sig,
      (∀ i j, jobs sh !! i = Some j → pid j ≠ p) →
      sigchld_handler ((p, WSTOPPED sig) :: evs) sh =
      sigchld_handler evs sh) ∧
  (∀ evs1 evs2 sh1,
      Forall (λ e, 0 < e.1) evs1 →
      sigchld_handler (evs1 ++ evs2) sh1 =
      sigchld_handler evs2 (sigchld_handler evs1 sh1)) ∧
  (∀ q status sh1, q ≤ 0 → sigchld_handler ((q, status) :: evs) sh1 = sh1) ∧
  (∀ sh1, sigchld_handler [] sh1 = sh1).
Proof.
  intros Hp Hlen. repeat split.
  - intros status i j Hst Hj Hpid Hmin. simpl. destruct (decide (p > 0)); [|lia].
    assert (deletejob (jobs sh) p = (1, <[i := clearjob j]> (jobs sh))) as Hd.
    { eapply deletejob_first; eauto; [lia|].
      apply lookup_lt_Some in Hj. lia. }
    destruct Hst as [n [-> | ->]]; simpl; by rewrite Hd.
  - intros status Hst Habs. simpl. destruct (decide (p > 0)); [|lia].
    pose proof (deletejob_absent (jobs sh) p Habs) as Hd.
    destruct Hst as [n [-> | ->]]; simpl; by rewrite Hd.
  - intros sig i j Hj Hpid Hmin. simpl. destruct (decide (p > 0)); [|lia].
    erewrite getjobpid_first; eauto; [by rewrite Hj|].
    apply lookup_lt_Some in Hj. lia.
  - intros sig Habs. simpl. destruct (decide (p > 0)); [|lia].
    by rewrite getjobpid_absent.
  - intros. by apply sigchld_handler_app.
  - intros q status sh1 Hq. simpl. by destruct (decide (q > 0)); [lia|].
Qed.
(** ** The argument array *)

Lemma cells_lookup (pre : list string) (l : list cell) k :
  ((Some <$> pre) ++ l) !! (length pre + k)%nat = l !! k.
Proof.
  rewrite lookup_app_r; rewrite length_fmap; [|lia].
  f_equal. lia.
Qed.

Lemma cells_insert (pre : list string) (l : list cell) k x :
  <[(length pre + k)%nat := x]> ((Some <$> pre) ++ l) =
  (Some <$> pre) ++ <[k := x]> l.
Proof.
  rewrite insert_app_r_alt; rewrite length_fmap; [|lia].
  do 2 f_equal. lia.
Qed.

Lemma cells_insert_0 (pre : list string) (l : list cell) x :
  <[length pre := x]> ((Some <$> pre) ++ l) = (Some <$> pre) ++ <[0%nat := x]> l.
Proof. rewrite <- (cells_insert pre l 0). f_equal. lia. Qed.

Lemma cells_lookup_0 (pre : list string) (l : list cell) :
  ((Some <$> pre) ++ l) !! length pre = l !! 0%nat.
Proof. rewrite <- (cells_lookup pre l 0). f_equal. lia. Qed.

Lemma cells_snoc (pre : list string) (w : string) (l : list cell) :
  (Some <$> pre) ++ Some w :: l = (Some <$> (pre ++ [w])) ++ l.
Proof. by rewrite fmap_app, <- app_assoc. Qed.

(** The loop that moves the tail two cells down, then the two NULL
    stores: the operator and its file name are gone, the words after them
    follow the words before them. *)
Lemma shift_args_spec (post pre : list string) (x y : cell) junk fuel :
  (length post < fuel)%nat →
  ∃ args j,
    shift_args fuel
      ((Some <$> pre) ++ x :: y :: (Some <$> post) ++ None :: junk)
      (length pre) = Some (args, j) ∧
    <[(j + 1)%nat := None]> (<[j := None]> args) =
      (Some <$> (pre ++ post)) ++ None :: None :: None :: junk.
Proof.
  revert pre x y fuel.
  induction post as [|w post IH]; intros pre x y fuel Hfuel.
  - destruct fuel as [|fuel]; [simpl in Hfuel; lia|]. simpl.
    rewrite (cells_lookup pre _ 2). simpl.
    eexists _, _. split; [done|].
    rewrite cells_insert_0, cells_insert. simpl. by rewrite app_nil_r.
  - destruct fuel as [|fuel]; [simpl in Hfuel; lia|]. simpl.
    rewrite (cells_lookup pre _ 2). simpl.
    rewrite cells_insert_0. simpl. rewrite cells_snoc.
    destruct (IH (pre ++ [w]) y (Some w) fuel) as (args & j & Hs & Hins).
    { simpl in Hfuel. lia. }
    rewrite length_app in Hs. simpl in Hs.
    rewrite Nat.add_1_r in Hs.
    eexists _, _. split; [exact Hs|].
    rewrite Hins. by rewrite <- app_assoc.
Qed.

Lemma MAX_ARGS_eq : MAX_ARGS = 64%nat.
Proof. reflexivity. Qed.

Local Opaque MAX_ARGS.

(** [handle_redirections] on the array does what the word list says:
    it opens the files of [redirections_of] in order, fails on the first
    [open] that fails or on an operator without a file name, and on
    success leaves [strip_redirs] of the words in the array. *)
Lemma redirections_from_spec fuel :
  ∀ (ws pre : list string) junk in_fd out_fd p,
  (length ws < fuel)%nat → (length pre + length ws < MAX_ARGS)%nat →
  ∃ rd,
    redirections_from fuel ((Some <$> pre) ++ (Some <$> ws) ++ None :: junk)
      (length pre) in_fd out_fd p = Some rd ∧
    rd_in rd = (run_redirs (redirections_of ws) in_fd out_fd p).1.1.2 ∧
    rd_out rd = (run_redirs (redirections_of ws) in_fd out_fd p).1.2 ∧
    rd_proc rd = (run_redirs (redirections_of ws) in_fd out_fd p).2 ∧
    rd_ret rd =
      (if (run_redirs (redirections_of ws) in_fd out_fd p).1.1.1
          && negb (dangling ws) then 0 else -1) ∧
    (rd_ret rd = 0 →
     ∃ junk', rd_args rd = (Some <$> (pre ++ strip_redirs ws)) ++ None :: junk').
Proof.
  pose proof MAX_ARGS_eq as HM.
  induction fuel as [|fuel IH]; intros ws pre junk in_fd out_fd p Hfuel Hlen;
    [lia|].
  destruct ws as [|w rest]; simpl.
  - rewrite cells_lookup_0. simpl. eexists. split; [done|]. simpl.
    split_and!; try done. intros _. exists junk. by rewrite app_nil_r.
  - rewrite cells_lookup_0. simpl.
    destruct (redir_of w) as [r|] eqn:Hr.
    + rewrite (cells_lookup pre _ 1). simpl.
      destruct rest as [|path rest']; simpl.
      { eexists. split; [done|]. simpl. split_and!; try done; lia. }
      destruct (redir_open r path p) as [fd p1] eqn:Ho.
      destruct (decide (fd < 0)) as [Hfd|Hfd].
      { eexists. split; [done|]. simpl. split_and!; try done; lia. }
      destruct (shift_args_spec rest' pre (Some w) (Some path) junk MAX_ARGS)
        as (args & j & Hs & Hins).
      { simpl in Hlen. lia. }
      match goal with
      | |- context [shift_args ?a ?b ?c] =>
          replace (shift_args a b c) with (Some (args, j))
            by (symmetry; exact Hs)
      end.
      rewrite Hins. rewrite fmap_app, <- app_assoc.
      apply IH; simpl in *; lia.
    + rewrite cells_snoc.
      replace (S (length pre)) with (length (pre ++ [w]))
        by (rewrite length_app; simpl; lia).
      destruct (IH rest (pre ++ [w]) junk in_fd out_fd p)
        as (rd & Hrd & Hin & Hout & Hp & Hret & Hargs).
      { simpl in Hfuel. lia. }
      { rewrite length_app. simpl in *. lia. }
      exists rd. split; [done|]. split_and!; try done.
      intros H0. destruct (Hargs H0) as [junk' ->].
      exists junk'. by rewrite <- app_assoc.
Qed.


Lemma c_argv_cells (ws : list string) junk :
  c_argv ((Some <$> ws) ++ None :: junk) = ws.
Proof. induction ws as [|w ws IH]; simpl; [done|]. f_equal. exact IH. Qed.

(** The parse loop keeps the first [MAX_ARGS - 1] tokens and no more. *)
Lemma fill_args_spec (toks pre : list string) (l : list cell) :
  (length pre + length l = MAX_ARGS)%nat →
  fill_args toks (length pre) ((Some <$> pre) ++ l) =
    ((Some <$> (pre ++ take (MAX_ARGS - 1 - length pre) toks)) ++
       drop (length (take (MAX_ARGS - 1 - length pre) toks)) l,
     (length pre + length (take (MAX_ARGS - 1 - length pre) toks))%nat).
Proof.
  pose proof MAX_ARGS_eq as HM.
  revert pre l. induction toks as [|tok toks IH]; intros pre l Hlen.
  - simpl. rewrite take_nil. simpl. by rewrite app_nil_r, Nat.add_0_r.
  - simpl. destruct (decide (length pre < MAX_ARGS - 1)%nat) as [Hlt|Hge].
    + destruct l as [|c l]; [simpl in Hlen; lia|].
      rewrite cells_insert_0. simpl. rewrite cells_snoc.
      replace (S (length pre)) with (length (pre ++ [tok]))
        by (rewrite length_app; simpl; lia).
      rewrite IH by (rewrite length_app; simpl in *; lia).
      rewrite length_app. simpl.
      replace (MAX_ARGS - 1 - length pre)%nat
        with (S (MAX_ARGS - 1 - (length pre + 1)))%nat by lia.
      simpl. rewrite <- app_assoc. simpl. f_equal. lia.
    + replace (MAX_ARGS - 1 - length pre)%nat with 0%nat by lia.
      simpl. by rewrite app_nil_r, Nat.add_0_r.
Qed.

(** The array code of a stage computes what the word list says, on the
    first 63 words of the segment. *)
Lemma parse_and_execute_stage_words found args0 seg in_fd out_fd p :
  length args0 = MAX_ARGS →
  parse_and_execute_stage found args0 seg in_fd out_fd p =
  stage_on_words found (take (MAX_ARGS - 1) (strtok blanks seg)) in_fd out_fd p.
Proof.
  intros Hlen. unfold parse_and_execute_stage.
  pose proof MAX_ARGS_eq as HM.
  pose proof (fill_args_spec (strtok blanks seg) [] args0 Hlen) as Hfill.
  simpl in Hfill. rewrite Nat.sub_0_r in Hfill. rewrite Hfill. clear Hfill.
  set (ws := take (MAX_ARGS - 1) (strtok blanks seg)).
  assert (length ws < MAX_ARGS)%nat as Hws.
  { unfold ws. rewrite length_take. lia. }
  destruct (drop (length ws) args0) as [|c junk] eqn:Hdrop.
  { apply (f_equal length) in Hdrop. rewrite length_drop in Hdrop.
    simpl in Hdrop. lia. }
  replace (<[length ws := None]> ((Some <$> ws) ++ c :: junk))
    with ((Some <$> ws) ++ None :: junk)
    by (by rewrite cells_insert_0).
  destruct ws as [|w0 ws'] eqn:Ews; [done|].
  rewrite <- Ews in *.
  lazymatch goal with
  | |- match ?x with _ => _ end = _ =>
      replace x with (Some (Some w0) : option cell) by (by rewrite Ews)
  end.
  unfold handle_redirections.
  destruct (redirections_from_spec (S MAX_ARGS) ws [] junk in_fd out_fd p)
    as (rd & Hrd & Hin & Hout & Hp & Hret & Hargs); [lia|simpl; lia|].
  lazymatch goal with
  | |- context [redirections_from ?f ?a ?i ?x ?y ?z] =>
      replace (redirections_from f a i x y z) with (Some rd)
        by (symmetry; exact Hrd)
  end.
  unfold stage_on_words. rewrite Ews at 1.
  destruct (run_redirs (redirections_of ws) in_fd out_fd p)
    as [[[ok i] o] p1] eqn:Hrun.
  simpl in Hin, Hout, Hp, Hret.
  destruct (ok && negb (dangling ws)) eqn:Hok.
  - rewrite decide_False by lia.
    destruct (Hargs Hret) as [junk' Ha]. simpl in Ha.
    rewrite Ha, Hin, Hout, Hp, c_argv_cells.
    destruct (strip_redirs ws) as [|prog rest]; done.
  - rewrite decide_True by lia. by rewrite Hp.
Qed.

Local Transparent MAX_ARGS.

(** ** Descriptors of a stage *)

Lemma lowest_free_spec (t : gmap Z file) :
  t !! lowest_free t = None ∧ 0 ≤ lowest_free t.
Proof.
  unfold lowest_free.
  destruct (list_find (λ n, t !! n = None) (seqZ 0 (Z.of_nat (size t) + 1)))
    as [[k n]|] eqn:E; simpl.
  - apply list_find_Some in E as (Hk & Hn & _).
    split; [done|]. apply lookup_seqZ in Hk. lia.
  - exfalso. apply list_find_None in E. rewrite Forall_forall in E.
    assert ((list_to_set (seqZ 0 (Z.of_nat (size t) + 1)) : gset Z) ⊆ dom t)
      as Hsub.
    { intros n Hn. apply elem_of_list_to_set in Hn.
      apply elem_of_dom. destruct (t !! n) eqn:Hl; [eauto|].
      by destruct (E n Hn). }
    apply subseteq_size in Hsub.
    rewrite size_list_to_set in Hsub by apply NoDup_seqZ.
    rewrite length_seqZ, size_dom in Hsub. lia.
Qed.

Lemma redir_open_flags r path p :
  redir_open r path p =
  match opens p with
  | true :: rest =>
      (lowest_free (fdt p),
       Proc (<[lowest_free (fdt p) := redir_file r path]> (fdt p)) rest
         (c_out p) (c_err p))
  | false :: rest => (-1, Proc (fdt p) rest (c_out p) (c_err p))
  | [] => (-1, p)
  end.
Proof. by destruct r. Qed.

Lemma redir_open_ok r path p fd p' :
  redir_open r path p = (fd, p') → ¬ fd < 0 →
  fdt p !! fd = None ∧ 0 ≤ fd ∧
  fdt p' = <[fd := redir_file r path]> (fdt p) ∧
  opens p = true :: opens p' ∧ c_out p' = c_out p ∧ c_err p' = c_err p.
Proof.
  rewrite redir_open_flags. intros Ho Hfd.
  destruct (lowest_free_spec (fdt p)) as [Hfree Hpos].
  destruct (opens p) as [|[] rest]; simplify_eq/=; try lia. done.
Qed.

Lemma redir_open_fail r path p fd p' :
  redir_open r path p = (fd, p') → fd < 0 →
  fdt p' = fdt p ∧ c_out p' = c_out p ∧ c_err p' = c_err p ∧
  (opens p = [] ∨ ∃ rest, opens p = false :: rest).
Proof.
  rewrite redir_open_flags. intros Ho Hfd.
  destruct (lowest_free_spec (fdt p)) as [Hfree Hpos].
  destruct (opens p) as [|[] rest]; simplify_eq/=; try lia; eauto 10.
Qed.

Lemma last_in_cons r path rs :
  last_in ((r, path) :: rs) =
  match last_in rs with
  | Some x => Some x
  | None => if decide (r = RedirIn) then Some path else None
  end.
Proof.
  unfold last_in. rewrite filter_cons. simpl.
  destruct (decide (r = RedirIn)); [|by destruct (last _)].
  rewrite last_cons. by destruct (last _).
Qed.

Lemma last_out_cons r path rs :
  last_out ((r, path) :: rs) =
  match last_out rs with
  | Some x => Some x
  | None => if decide (r ≠ RedirIn) then Some (r, path) else None
  end.
Proof.
  unfold last_out. rewrite filter_cons. simpl.
  destruct (decide (r ≠ RedirIn)); [|by destruct (last _)].
  rewrite last_cons. by destruct (last _).
Qed.

(** When every [open] succeeds: the table only grows, [in_fd] is the
    descriptor of the last input redirection and [out_fd] that of the last
    output redirection, both new. *)
Lemma run_redirs_ok rs :
  ∀ i o p i' o' p',
  run_redirs rs i o p = (true, i', o', p') →
  fdt p ⊆ fdt p' ∧ c_out p' = c_out p ∧ c_err p' = c_err p ∧
  match last_in rs with
  | Some path =>
      fdt p' !! i' = Some (redir_file RedirIn path) ∧ fdt p !! i' = None ∧
      0 ≤ i'
  | None => i' = i
  end ∧
  match last_out rs with
  | Some (r, path) =>
      fdt p' !! o' = Some (redir_file r path) ∧ fdt p !! o' = None ∧ 0 ≤ o' ∧
      r ≠ RedirIn
  | None => o' = o
  end.
Proof.
  induction rs as [|[r path] rs IH]; intros i o p i' o' p' Hrun.
  - simpl in Hrun. by simplify_eq.
  - simpl in Hrun. destruct (redir_open r path p) as [fd p1] eqn:Ho.
    destruct (decide (fd < 0)) as [|Hfd]; [done|].
    destruct (redir_open_ok _ _ _ _ _ Ho Hfd)
      as (Hfree & Hpos & Hfdt & _ & Hout & Herr).
    apply IH in Hrun as (Hsub & Hout' & Herr' & Hin & Hou).
    assert (fdt p ⊆ fdt p1) as Hsub1.
    { rewrite Hfdt. by apply insert_subseteq. }
    assert (fdt p1 !! fd = Some (redir_file r path)) as Hfd1.
    { rewrite Hfdt. apply lookup_insert_eq. }
    assert (∀ k, fdt p1 !! k = None → fdt p !! k = None) as Hnone.
    { intros k Hk. destruct (fdt p !! k) eqn:E; [|done].
      eapply lookup_weaken in E; [|exact Hsub1]. congruence. }
    split; [by etrans|]. split; [congruence|]. split; [congruence|].
    rewrite last_in_cons, last_out_cons. split.
    + destruct (last_in rs) as [path'|].
      * destruct Hin as (? & ? & ?). eauto.
      * subst i'. destruct r; simpl; try done.
        split; [|done]. by eapply lookup_weaken.
    + destruct (last_out rs) as [[r' path']|].
      * destruct Hou as (? & ? & ? & ?). eauto.
      * subst o'. destruct r; simpl; try done.
        all: split; [by eapply lookup_weaken|done].
Qed.

(** All the answers the kernel gives are "yes": every redirection opens. *)
Lemma run_redirs_all_open rs :
  ∀ i o p more,
  opens p = replicate (length rs) true ++ more →
  (run_redirs rs i o p).1.1.1 = true.
Proof.
  induction rs as [|[r path] rs IH]; intros i o p more Hop; [done|].
  simpl. rewrite redir_open_flags. simpl in Hop. rewrite Hop.
  destruct (lowest_free_spec (fdt p)) as [_ Hpos].
  rewrite decide_False by lia. by eapply IH.
Qed.

(** The first [open] that fails stops the stage with the message of its
    operator. *)
Lemma run_redirs_first_failure rs1 r path rs2 :
  ∀ i o p more,
  opens p = replicate (length rs1) true ++ false :: more →
  (run_redirs (rs1 ++ (r, path) :: rs2) i o p).1.1.1 = false ∧
  c_err (run_redirs (rs1 ++ (r, path) :: rs2) i o p).2 =
    c_err p ++ [redir_msg r] ∧
  c_out (run_redirs (rs1 ++ (r, path) :: rs2) i o p).2 = c_out p.
Proof.
  induction rs1 as [|[r1 path1] rs1 IH]; intros i o p more Hop.
  - simpl. rewrite redir_open_flags. simpl in Hop. rewrite Hop.
    by rewrite decide_True by lia.
  - simpl. rewrite redir_open_flags. simpl in Hop. rewrite Hop.
    destruct (lowest_free_spec (fdt p)) as [_ Hpos].
    rewrite decide_False by lia.
    match goal with
    | |- context [run_redirs _ ?a ?b ?q] =>
        destruct (IH a b q more) as (H1 & H2 & H3); [done|]
    end.
    by rewrite H1, H2, H3.
Qed.

Lemma strip_redirs_plain ws :
  Forall (λ w, redir_of w = None) (strip_redirs ws).
Proof.
  induction ws as [ws IH] using (induction_ltof1 _ (@length string)).
  unfold ltof in IH.
  destruct ws as [|w rest]; simpl; [constructor|].
  destruct (redir_of w) eqn:Hr.
  - destruct rest as [|path rest']; [constructor|].
    apply IH. simpl. lia.
  - constructor; [done|]. apply IH. simpl. lia.
Qed.


Ltac fd_lookup :=
  repeat first [ rewrite lookup_insert_eq
               | rewrite lookup_insert_ne by lia
               | rewrite lookup_delete_ne by lia ].

Lemma pipe_wiring_std cmd_count i prev_pipe_read pipefd p :
  is_Some (fdt p !! 0) → is_Some (fdt p !! 1) →
  prev_pipe_read = 0 ∨ 2 ≤ prev_pipe_read → 2 ≤ pipefd.1 → 2 ≤ pipefd.2 →
  let pw := pipe_wiring cmd_count i prev_pipe_read pipefd p in
  is_Some (fdt pw !! 0) ∧ is_Some (fdt pw !! 1) ∧
  opens pw = opens p ∧ c_out pw = c_out p ∧ c_err pw = c_err p.
Proof.
  intros H0 H1 Hprev Hr Hw. unfold pipe_wiring, STDIN_FILENO, STDOUT_FILENO.
  set (p1 := if decide (prev_pipe_read ≠ 0)
             then c_close prev_pipe_read (dup2 prev_pipe_read 0 p) else p).
  assert (is_Some (fdt p1 !! 0) ∧ is_Some (fdt p1 !! 1) ∧
          opens p1 = opens p ∧ c_out p1 = c_out p ∧ c_err p1 = c_err p)
    as (H0' & H1' & Ho & Hout & Herr).
  { unfold p1. case_decide; [|done]. unfold dup2, c_close.
    destruct (fdt p !! prev_pipe_read); simpl;
      split_and!; fd_lookup; eauto. }
  clearbody p1. simpl. case_decide; [|done]. unfold dup2, c_close.
  destruct (fdt p1 !! pipefd.2); simpl;
    split_and!; fd_lookup; eauto.
Qed.

Lemma redir_of_None w : redir_of w = None → w ≠ "<" ∧ w ≠ ">" ∧ w ≠ ">>".
Proof. unfold redir_of. repeat case_decide; done. Qed.

Lemma redir_file_in_out r path path' :
  r ≠ RedirIn → redir_file RedirIn path ≠ redir_file r path'.
Proof. destruct r; done. Qed.

(** Where the standard streams point once the descriptors of the
    redirections have been duplicated over them. *)
Lemma redirect_std (pw p1 : proc) rs i o :
  is_Some (fdt pw !! 0) → is_Some (fdt pw !! 1) →
  fdt pw ⊆ fdt p1 →
  match last_in rs with
  | Some path =>
      fdt p1 !! i = Some (redir_file RedirIn path) ∧ fdt pw !! i = None ∧ 0 ≤ i
  | None => i = -1
  end →
  match last_out rs with
  | Some (r, path) =>
      fdt p1 !! o = Some (redir_file r path) ∧ fdt pw !! o = None ∧ 0 ≤ o ∧
      r ≠ RedirIn
  | None => o = -1
  end →
  let p2 := if decide (i ≠ -1) then c_close i (dup2 i STDIN_FILENO p1)
            else p1 in
  let p3 := if decide (o ≠ -1) then c_close o (dup2 o STDOUT_FILENO p2)
            else p2 in
  fdt p3 !! 0 = match last_in rs with
                | Some path => Some (redir_file RedirIn path)
                | None => fdt pw !! 0
                end ∧
  fdt p3 !! 1 = match last_out rs with
                | Some (r, path) => Some (redir_file r path)
                | None => fdt pw !! 1
                end.
Proof.
  intros [f0 H0] [f1 H1] Hsub Hin Hout.
  pose proof (lookup_weaken _ _ _ _ H0 Hsub) as H0'.
  pose proof (lookup_weaken _ _ _ _ H1 Hsub) as H1'.
  unfold STDIN_FILENO, STDOUT_FILENO. cbv zeta.
  destruct (last_in rs) as [path|]; destruct (last_out rs) as [[r path']|].
  - destruct Hin as (Hi & Hiw & Hipos), Hout as (Ho & How & Hopos & Hr).
    assert (i ≠ 0 ∧ i ≠ 1 ∧ o ≠ 0 ∧ o ≠ 1) as (? & ? & ? & ?)
      by (split_and!; congruence).
    assert (i ≠ o) as Hio.
    { intros ->. rewrite Hi in Ho. injection Ho as Ho.
      by apply redir_file_in_out in Ho. }
    repeat case_decide; try lia.
    unfold dup2, c_close. rewrite Hi. simpl. fd_lookup. rewrite Ho. simpl.
    by fd_lookup.
  - destruct Hin as (Hi & Hiw & Hipos). subst o.
    assert (i ≠ 0 ∧ i ≠ 1) as (? & ?) by (split_and!; congruence).
    repeat case_decide; try lia.
    unfold dup2, c_close. rewrite Hi. simpl. fd_lookup.
    by rewrite H1, H1'.
  - destruct Hout as (Ho & How & Hopos & Hr). subst i.
    assert (o ≠ 0 ∧ o ≠ 1) as (? & ?) by (split_and!; congruence).
    repeat case_decide; try lia.
    unfold dup2, c_close. rewrite Ho. simpl. fd_lookup.
    by rewrite H0, H0'.
  - subst i o.
    repeat case_decide; try lia. by rewrite H0, H0', H1, H1'.
Qed.

(** C8.  A stage of a pipeline, in a child whose descriptors 0 and 1 are
    open and whose pipe ends are descriptors from 2 on.  With [ws] the
    words of the stage and [rs] their redirections:
    - if the stage reaches [execvp], the argv is [ws] without the
      operators [<], [>], [>>] and without the words after them;
      descriptor 0 is the file of the last [<], opened read-only, and
      otherwise what the pipe wiring left there; descriptor 1 is the file
      of the last [>] or [>>], opened write-only with O_CREAT, mode 0644
      and O_TRUNC for [>], O_APPEND for [>>], and otherwise what the pipe
      wiring left there;
    - the stage does reach [execvp] when every operator has a file name,
      every [open] succeeds and the program is found;
    - when the [open] of a [<] is the first to fail, "open <" goes to
      [perror] and the stage exits with status 1. *)
Theorem child_redirections (found : string → bool) (args0 : list cell)
    (commands : list string) (i : nat) (prev_pipe_read : Z) (pipefd : Z * Z)
    (p : proc) (cmd : string) :
  length args0 = MAX_ARGS →
  commands !! i = Some cmd →
  is_Some (fdt p !! 0) → is_Some (fdt p !! 1) →
  prev_pipe_read = 0 ∨ 2 ≤ prev_pipe_read → 2 ≤ pipefd.1 → 2 ≤ pipefd.2 →
  let ws := take (MAX_ARGS - 1) (strtok blanks cmd) in
  let rs := redirections_of ws in
  let pw := pipe_wiring (length commands) i prev_pipe_read pipefd p in
  let run := child found args0 commands i prev_pipe_read pipefd p in
  (∀ argv p', run = Some (Exec argv, p') →
     argv = strip_redirs ws ∧
     Forall (λ w, w ≠ "<" ∧ w ≠ ">" ∧ w ≠ ">>") argv ∧
     fdt p' !! 0 =
       match last_in rs with
       | Some path => Some (Opened path O_RDONLY None)
       | None => fdt pw !! 0
       end ∧
     fdt p' !! 1 =
       match last_out rs with
       | Some (RedirAppend, path) =>
           Some (Opened path (Z.lor (Z.lor O_WRONLY O_CREAT) O_APPEND)
                   (Some mode_0644))
       | Some (_, path) =>
           Some (Opened path (Z.lor (Z.lor O_WRONLY O_CREAT) O_TRUNC)
                   (Some mode_0644))
       | None => fdt pw !! 1
       end) ∧
  (dangling ws = false →
   (∃ more, opens p = replicate (length rs) true ++ more) →
   (∃ prog rest, strip_redirs ws = prog :: rest ∧ found prog = true) →
   ∃ p', run = Some (Exec (strip_redirs ws), p')) ∧
  (∀ rs1 path rs2 more,
     rs = rs1 ++ (RedirIn, path) :: rs2 →
     opens p = replicate (length rs1) true ++ false :: more →
     ∃ p', run = Some (Exited 1, p') ∧ c_err p' = c_err p ++ ["open <"]).
Proof.
  intros Hlen Hcmd H0 H1 Hprev Hr Hw ws rs pw run.
  destruct (pipe_wiring_std (length commands) i prev_pipe_read pipefd p
              H0 H1 Hprev Hr Hw) as (H0w & H1w & Hopens & Hcout & Hcerr).
  fold pw in H0w, H1w, Hopens, Hcout, Hcerr.
  assert (run = stage_on_words found ws (-1) (-1) pw) as Hrun.
  { unfold run, child. rewrite Hcmd.
    by apply parse_and_execute_stage_words. }
  rewrite Hrun. clear Hrun. clearbody pw. subst rs. clearbody ws. clear run.
  unfold stage_on_words. split_and!.
  - intros argv p' Hex. destruct ws as [|w0 ws'] eqn:Ews; [done|].
    rewrite <- Ews in *. set (rs := redirections_of ws) in *.
    destruct (run_redirs rs (-1) (-1) pw) as [[[ok i'] o'] p1] eqn:Hrs.
    destruct ok; simpl in Hex; [|by destruct (dangling ws)].
    destruct (dangling ws); simpl in Hex; [done|].
    apply run_redirs_ok in Hrs as (Hsub & _ & _ & Hin & Hout).
    pose proof (redirect_std pw p1 rs i' o' H0w H1w Hsub) as Hstd.
    destruct (strip_redirs ws) as [|prog rest] eqn:Hstrip; [done|].
    destruct (found prog); [|done]. injection Hex as <- <-.
    split; [done|]. split.
    { rewrite <- Hstrip. eapply Forall_impl; [apply strip_redirs_plain|].
      intros w. apply redir_of_None. }
    destruct Hstd as [Hs0 Hs1].
    { destruct (last_in rs); [tauto|done]. }
    { destruct (last_out rs) as [[??]|]; [tauto|done]. }
    simpl in Hs0, Hs1. rewrite Hs0, Hs1. split.
    + by destruct (last_in rs).
    + destruct (last_out rs) as [[[] ?]|]; try done.
      destruct Hout as (_ & _ & _ & Hne). by destruct Hne.
  - intros Hdang (more & Hmore) (prog & rest & Hstrip & Hfound).
    destruct ws as [|w0 ws'] eqn:Ews; [done|].
    rewrite <- Ews in *. set (rs := redirections_of ws) in *.
    pose proof (run_redirs_all_open rs (-1) (-1) pw more) as Hok.
    rewrite Hopens in Hok. specialize (Hok Hmore).
    destruct (run_redirs rs (-1) (-1) pw) as [[[ok i'] o'] p1].
    simpl in Hok. subst ok. rewrite Hdang, Hstrip, Hfound. simpl. eauto.
  - intros rs1 path rs2 more Hrs Hmore.
    destruct ws as [|w0 ws'] eqn:Ews.
    { simpl in Hrs. by destruct rs1. }
    rewrite <- Ews in *. set (rs := redirections_of ws) in *.
    pose proof (run_redirs_first_failure rs1 RedirIn path rs2 (-1) (-1) pw more)
      as Hfail.
    rewrite Hopens, <- Hrs in Hfail. destruct (Hfail Hmore) as (Hok & He & _).
    destruct (run_redirs rs (-1) (-1) pw) as [[[ok i'] o'] p1].
    simpl in Hok, He. subst ok. simpl. eexists. split; [done|].
    by rewrite He, Hcerr.
Qed.

Lemma child_redirections_witness :
  ∃ p',
    child (λ _, true) (replicate 64 None) ["a "; " b < f >> g"] 1 3 (5, 6)
      (Proc {[0 := Inherited 0; 1 := Inherited 1; 3 := PipeRead 0]}
         [true; true] [] []) = Some (Exec ["b"], p') ∧
    fdt p' !! 0 = Some (Opened "f" O_RDONLY None) ∧
    fdt p' !! 1 =
      Some (Opened "g" (Z.lor (Z.lor O_WRONLY O_CREAT) O_APPEND)
              (Some mode_0644)).
Proof.
  destruct (child_redirections (λ _, true) (replicate 64 None)
              ["a "; " b < f >> g"] 1 3 (5, 6)
              (Proc {[0 := Inherited 0; 1 := Inherited 1; 3 := PipeRead 0]}
                 [true; true] [] []) " b < f >> g")
    as (Hexec & Hreach & _).
  - reflexivity.
  - reflexivity.
  - by exists (Inherited 0).
  - by exists (Inherited 1).
  - right. lia.
  - simpl. lia.
  - simpl. lia.
  - destruct Hreach as [p' Hp'].
    + reflexivity.
    + by exists [].
    + by exists "b", [].
    + exists p'. split; [exact Hp'|].
      destruct (Hexec _ _ Hp') as (_ & _ & H0 & H1). by split.
Defined.

(** ** The length of a stage *)


Lemma string_app_cons (x : ascii) (a b : string) :
  String x a +:+ b = String x (a +:+ b).
Proof. reflexivity. Qed.


Lemma string_app_assoc (a b c : string) : (a +:+ b) +:+ c = a +:+ (b +:+ c).
Proof.
  induction a as [|x a IH]; [done|].
  rewrite !string_app_cons. by rewrite IH.
Qed.

Lemma string_app_nil_r (a : string) : a +:+ "" = a.
Proof.
  induction a as [|x a IH]; [done|]. rewrite string_app_cons. by rewrite IH.
Qed.
















Lemma sigchld_handler_event_witness :
  sigchld_handler [(100, WSTOPPED 20)]
    (set_jobs (<[0%nat := Job 100 1 FG "sleep 30"]> (initjobs jobs_static))
       (startup 50 0)) =
  printf ("Job [1] (100) stopped by signal 20" +:+ nl)
    (set_jobs (<[0%nat := Job 100 1 ST "sleep 30"]>
                 (<[0%nat := Job 100 1 FG "sleep 30"]> (initjobs jobs_static)))
       (set_jobs (<[0%nat := Job 100 1 FG "sleep 30"]> (initjobs jobs_static))
          (startup 50 0))).
Proof.
  destruct (sigchld_handler_event
              (set_jobs (<[0%nat := Job 100 1 FG "sleep 30"]>
                           (initjobs jobs_static)) (startup 50 0)) 100 [])
    as (_ & _ & Hstop & _); [lia|reflexivity|].
  apply (Hstop 20 0%nat (Job 100 1 FG "sleep 30")); [reflexivity|reflexivity|].
  intros k j' Hk. lia.
Defined.

(** ** [fg] and [bg] with an argument that names no job *)

(** C1 fails on the code.  [bg %abc] at a fresh shell: [atoi] reads 0,
    [getjobjid(jobs, 0)] answers the first empty slot, SIGCONT goes to
    process group 0, the slot's state becomes BG and "[0] (0) " is
    printed instead of a diagnostic.  [fg 0] does the same with state FG
    and then waits for process group 0. *)
Theorem bg_malformed_spec_hits_empty_slot :
  ∃ sh',
    eval (λ _, StageOs None (-1)) ("bg %abc" +:+ nl) (startup 50 0) =
      Some (sh', Return) ∧
    kills sh' = [(0, SIGCONT)] ∧
    jobs sh' !! 0%nat = Some (Job 0 0 BG "") ∧
    jobs (startup 50 0) !! 0%nat = Some (Job 0 0 UNDEF "") ∧
    out sh' = ["[0] (0) " +:+ nl] ∧
  ∃ sh'',
    eval (λ _, StageOs None (-1)) ("fg 0" +:+ nl) (startup 50 0) =
      Some (sh'', Waitfg 0) ∧
    kills sh'' = [(0, SIGCONT)] ∧
    jobs sh'' !! 0%nat = Some (Job 0 0 FG "") ∧
    out sh'' = [].
Proof.
  eexists. split; [by vm_compute|]. split_and!; try done.
  eexists. split; [by vm_compute|]. done.
Qed.

(** ** A pipeline whose launch fails *)

(** C2 fails on the code.  [a | b] where the second [fork] fails: the
    shell returns with SIGCHLD still blocked and with the read end of the
    pipe (descriptor 3) still open; the diagnostic is written and the job
    table is untouched.  With SIGCHLD blocked the reaper no longer runs:
    a sleep leaves the children unreaped whatever has happened to them. *)
Theorem failed_fork_leaves_sigchld_blocked :
  let os := λ i : nat, match i with
                       | O => StageOs (Some (3, 4)) 100
                       | _ => StageOs None (-1)
                       end in
  ∃ sh',
    eval os ("a | b" +:+ nl) (startup 50 0) = Some (sh', Return) ∧
    sigchld_blocked (startup 50 0) = false ∧
    sigchld_blocked sh' = true ∧
    fds sh' = [3] ∧
    err sh' = ["fork"] ∧
    jobs sh' = jobs (startup 50 0) ∧
    children sh' = {[100]} ∧
    ∀ t, children (sleep t sh') = {[100]} ∧ jobs (sleep t sh') = jobs sh'.
Proof.
  eexists. split; [by vm_compute|]. split_and!; try done.
  intros [m evs]. by destruct m.
Qed.

(** ** Leaving the foreground wait *)

(** C3 fails on the code.  The foreground job 100 puts the terminal in
    another mode and is killed: [waitfg] returns with the terminal's
    foreground group back at the shell, and with the terminal still in the
    job's mode, not in the one saved at startup. *)
Theorem waitfg_leaves_terminal_modes :
  ∃ sh1 sh2,
    eval (λ _, StageOs None 100) ("vi" +:+ nl) (startup 50 0) =
      Some (sh1, Waitfg 100) ∧
    finish [Tick (Some 1) [(100, WSIGNALED 9)]] (sh1, Waitfg 100) = Some sh2 ∧
    term_pgrp sh2 = shell_pgid sh2 ∧
    shell_tmodes sh2 = 0 ∧
    term_modes sh2 = 1.
Proof.
  eexists _, _. split; [by vm_compute|]. split; [by vm_compute|]. done.
Qed.

(** ** Invariants of the reachable states *)

Lemma MAX_JOBS_eq : MAX_JOBS = 16%nat.
Proof. reflexivity. Qed.

(** A change of the table that keeps the pid and the jid of every slot
    keeps the table well formed. *)
Lemma table_ok_same_ids sh tbl' :
  table_ok sh →
  length tbl' = length (jobs sh) →
  (∀ i j', tbl' !! i = Some j' →
     ∃ j, jobs sh !! i = Some j ∧ pid j = pid j' ∧ jid j = jid j') →
  table_ok (set_jobs tbl' sh).
Proof.
  intros (Hlen & Hnj & Hshape & Huniq) Hlen' Hsame.
  split_and!; simpl; [congruence|done| |].
  - intros i j' Hj'. destruct (Hsame i j' Hj') as (j & Hj & Hp & Hk).
    rewrite <- Hp, <- Hk. eauto.
  - intros i i' j1' j2' H1 H2 Hlive Heq.
    destruct (Hsame i j1' H1) as (j1 & Hj1 & Hp1 & Hk1).
    destruct (Hsame i' j2' H2) as (j2 & Hj2 & Hp2 & Hk2).
    apply (Huniq i i' j1 j2); try done; congruence.
Qed.

Lemma log_ok_same_ids sh added tbl' :
  log_ok sh added →
  (∀ i j', tbl' !! i = Some j' →
     ∃ j, jobs sh !! i = Some j ∧ pid j = pid j' ∧ jid j = jid j') →
  log_ok (set_jobs tbl' sh) added.
Proof.
  intros (Hinc & Hlt & Hin) Hsame. split_and!; simpl; [done|done|].
  intros i j' Hj' Hlive. destruct (Hsame i j' Hj') as (j & Hj & Hp & Hk).
  rewrite <- Hk. apply (Hin i j); congruence.
Qed.

(** Changing the state of one slot keeps pids and jids. *)
Lemma insert_state_same_ids (tbl : list job_t) i job s :
  tbl !! i = Some job →
  ∀ k j', <[i := Job (pid job) (jid job) s (cmdline job)]> tbl !! k = Some j' →
    ∃ j, tbl !! k = Some j ∧ pid j = pid j' ∧ jid j = jid j'.
Proof.
  intros Hi k j' Hk. apply list_lookup_insert_Some in Hk
    as [(-> & <- & _)|(Hne & Hk)]; eauto.
Qed.

Lemma deletejob_cases tbl p :
  1 ≤ p → length tbl = MAX_JOBS →
  (∃ i j, tbl !! i = Some j ∧ pid j = p ∧
          (deletejob tbl p).2 = <[i := clearjob j]> tbl) ∨
  ((∀ i j, tbl !! i = Some j → pid j ≠ p) ∧ (deletejob tbl p).2 = tbl).
Proof.
  intros Hp Hlen. unfold deletejob. rewrite decide_False by lia.
  destruct (first_slot _ tbl) as [i|] eqn:E.
  - apply first_slot_lookup in E as (j & Hj & Hpj).
    left. exists i, j. by rewrite Hj.
  - right. split; [|done]. intros i j Hj.
    eapply first_slot_None in E; [exact E| |exact Hj].
    apply lookup_lt_Some in Hj. lia.
Qed.

(** One termination reported to the reaper. *)
Lemma reap_ok sh added md p :
  0 < p → table_ok sh → log_ok sh added → fg_ok (jobs sh) md →
  let sh' := set_jobs (deletejob (jobs sh) p).2
               (set_children (children sh ∖ {[p]}) sh) in
  table_ok sh' ∧ log_ok sh' added ∧ fg_ok (jobs sh') md.
Proof.
  intros Hp (Hlen & Hnj & Hshape & Huniq) (Hinc & Hlt & Hin) Hfg.
  destruct (deletejob_cases (jobs sh) p) as
    [(i & j & Hj & Hpj & ->)|[Habs ->]]; [lia|done| |]; simpl.
  - assert (∀ k j', <[i := clearjob j]> (jobs sh) !! k = Some j' →
              (k = i ∧ j' = clearjob j) ∨
              (k ≠ i ∧ jobs sh !! k = Some j' ∧ pid j' ≠ p)) as Hlk.
    { intros k j' Hk. apply list_lookup_insert_Some in Hk
        as [(-> & <- & _)|(Hne & Hk)]; [by left|].
      right. split_and!; try done. intros Hpk.
      destruct (Huniq i k j j' Hj Hk); [lia|left; congruence|done]. }
    split; [|split].
    + split_and!; simpl; [by rewrite length_insert|done| |].
      * intros k j' Hk. destruct (Hlk k j' Hk) as [[-> ->]|(Hne & Hk' & Hpk)];
          [by left|].
        destruct (Hshape k j' Hk') as [?|(Hs1 & Hs2 & Hs3)]; [by left|].
        right. split_and!; simpl; first [done|lia|set_solver].
      * intros k k' j1 j2 H1 H2 Hlive Heq.
        destruct (Hlk k j1 H1) as [[-> ->]|(Hne1 & H1' & Hp1)]; [done|].
        destruct (Hlk k' j2 H2) as [[-> ->]|(Hne2 & H2' & Hp2)].
        { simpl in Heq. destruct (Hshape k j1 H1') as [[??]|(? & ? & ?)];
            [done|]. destruct Heq; [done|lia]. }
        by apply (Huniq k k' j1 j2).
    + split_and!; simpl; [done|done|].
      intros k j' Hk Hlive.
      destruct (Hlk k j' Hk) as [[-> ->]|(Hne & Hk' & Hpk)]; [done|].
      by apply (Hin k j').
    + intros k j' Hk Hlive Hs.
      destruct (Hlk k j' Hk) as [[-> ->]|(Hne & Hk' & Hpk)]; [done|].
      by apply (Hfg k j').
  - split; [|split; [done|done]].
    split_and!; simpl; [done|done| |done].
    intros k j' Hk. destruct (Hshape k j' Hk) as [?|(Hs1 & Hs2 & Hs3)]; [by left|].
    specialize (Habs k j' Hk).
    right. split_and!; simpl; first [done|lia|set_solver].
Qed.

(** One stop reported to the reaper: slot [i] gets state ST. *)
Lemma stop_ok sh added md i job :
  jobs sh !! i = Some job →
  table_ok sh → log_ok sh added → fg_ok (jobs sh) md →
  let sh' := set_jobs (<[i := Job (pid job) (jid job) ST (cmdline job)]>
                         (jobs sh)) sh in
  table_ok sh' ∧ log_ok sh' added ∧ fg_ok (jobs sh') md.
Proof.
  intros Hi Htbl Hlog Hfg. split; [|split].
  - apply table_ok_same_ids; [done|by rewrite length_insert|].
    by apply insert_state_same_ids.
  - apply log_ok_same_ids; [done|]. by apply insert_state_same_ids.
  - intros k j' Hk Hlive Hs.
    apply list_lookup_insert_Some in Hk as [(-> & <- & _)|(Hne & Hk)];
      [done|]. by apply (Hfg k j').
Qed.

Lemma sigchld_handler_ok evs :
  ∀ sh added md,
  table_ok sh → log_ok sh added → fg_ok (jobs sh) md →
  table_ok (sigchld_handler evs sh) ∧ log_ok (sigchld_handler evs sh) added ∧
  fg_ok (jobs (sigchld_handler evs sh)) md.
Proof.
  induction evs as [|[p status] evs IH]; intros sh added md Ht Hl Hf; [done|].
  simpl. destruct (decide (p > 0)) as [Hp|]; [|done].
  assert (∀ sh1, table_ok sh1 ∧ log_ok sh1 added ∧ fg_ok (jobs sh1) md →
            table_ok (sigchld_handler evs sh1) ∧
            log_ok (sigchld_handler evs sh1) added ∧
            fg_ok (jobs (sigchld_handler evs sh1)) md) as IH'.
  { intros sh1 (? & ? & ?). by apply IH. }
  destruct status as [code|sig|sig].
  - apply IH'. apply reap_ok; [lia|done..].
  - apply IH'. apply reap_ok; [lia|done..].
  - destruct (getjobpid (jobs sh) p) as [i|]; [|by apply IH].
    destruct (jobs sh !! i) as [job|] eqn:Hi; [|by apply IH].
    apply IH'. unfold printf.
    destruct (stop_ok sh added md i job Hi Ht Hl Hf) as (? & ? & ?).
    split; [done|split; done].
Qed.

Lemma sleep_ok t sh added md :
  table_ok sh → log_ok sh added → fg_ok (jobs sh) md →
  table_ok (sleep t sh) ∧ log_ok (sleep t sh) added ∧
  fg_ok (jobs (sleep t sh)) md.
Proof.
  intros Ht Hl Hf. unfold sleep.
  assert (∀ sh1, jobs sh1 = jobs sh → next_jid sh1 = next_jid sh →
            children sh1 = children sh →
            table_ok sh1 ∧ log_ok sh1 added ∧ fg_ok (jobs sh1) md) as Hsame.
  { intros sh1 Hj Hn Hc. unfold table_ok, log_ok. by rewrite Hj, Hn, Hc. }
  destruct (tk_modes t) as [m|]; simpl.
  - destruct (sigchld_blocked sh); [by apply Hsame|].
    destruct (Hsame (set_term_modes m sh)) as (? & ? & ?); try done.
    by apply sigchld_handler_ok.
  - destruct (sigchld_blocked sh); [done|]. by apply sigchld_handler_ok.
Qed.

(** The launch loop leaves the table and the counter alone and only adds
    children. *)
Lemma launch_stages_keeps os cc n :
  ∀ i prev leader sh sh' res,
  launch_stages os cc n i prev leader sh = Some (sh', res) →
  jobs sh' = jobs sh ∧ next_jid sh' = next_jid sh ∧
  children sh ⊆ children sh' ∧ sigchld_blocked sh' = sigchld_blocked sh ∧
  kills sh' = kills sh ∧ out sh' = out sh.
Proof.
  induction n as [|n IH]; intros i prev leader sh sh' res Hl; simpl in Hl.
  { by simplify_eq. }
  destruct (decide (i < cc - 1)%nat) as [Hlt|Hge].
  - destruct (os_pipe (os i)) as [[r w]|]; [|by simplify_eq].
    destruct (decide (os_fork (os i) < 0)); [by simplify_eq|].
    destruct (decide (os_fork (os i) = 0)); [done|].
    apply IH in Hl as (-> & -> & Hc & -> & -> & ->).
    destruct (decide (prev ≠ STDIN_FILENO)); simpl in *;
      split_and!; try done; set_solver.
  - destruct (decide (os_fork (os i) < 0)); [by simplify_eq|].
    destruct (decide (os_fork (os i) = 0)); [done|].
    apply IH in Hl as (-> & -> & Hc & -> & -> & ->).
    destruct (decide (prev ≠ STDIN_FILENO)); simpl in *;
      split_and!; try done; set_solver.
Qed.

(** From the second stage on the leader is the one already chosen. *)
Lemma launch_stages_leader_later os cc n :
  ∀ i prev leader sh sh' l,
  i ≠ 0%nat →
  launch_stages os cc n i prev leader sh = Some (sh', Some l) → l = leader.
Proof.
  induction n as [|n IH]; intros i prev leader sh sh' l Hi Hl; simpl in Hl.
  { by simplify_eq. }
  rewrite (decide_False (P := i = 0%nat)) in Hl by done.
  destruct (decide (i < cc - 1)%nat) as [Hlt|Hge].
  - destruct (os_pipe (os i)) as [[r w]|]; [|by simplify_eq].
    destruct (decide (os_fork (os i) < 0)); [by simplify_eq|].
    destruct (decide (os_fork (os i) = 0)); [done|].
    by eapply IH in Hl.
  - destruct (decide (os_fork (os i) < 0)); [by simplify_eq|].
    destruct (decide (os_fork (os i) = 0)); [done|].
    by eapply IH in Hl.
Qed.

(** With at least one stage the leader is the first child: positive and
    among the children. *)
Lemma launch_stages_leader_first os cc n prev leader sh sh' l :
  launch_stages os cc (S n) 0 prev leader sh = Some (sh', Some l) →
  l = os_fork (os 0%nat) ∧ 0 < l ∧ l ∈ children sh'.
Proof.
  intros Hl. simpl in Hl.
  assert (∀ r sh1,
    launch_stages os cc n 1 r (os_fork (os 0%nat)) sh1 = Some (sh', Some l) →
    os_fork (os 0%nat) ∈ children sh1 → ¬ os_fork (os 0%nat) < 0 →
    os_fork (os 0%nat) ≠ 0 →
    l = os_fork (os 0%nat) ∧ 0 < l ∧ l ∈ children sh') as Hgo.
  { intros r sh1 Hl1 Hin Hn0 Hne.
    pose proof (launch_stages_leader_later _ _ _ _ _ _ _ _ _ ltac:(done) Hl1)
      as ->.
    apply launch_stages_keeps in Hl1 as (_ & _ & Hc & _).
    split_and!; [done|lia|set_solver]. }
  destruct (decide (0 < cc - 1)%nat) as [Hlt|Hge].
  - destruct (os_pipe (os 0%nat)) as [[r w]|]; [|by simplify_eq].
    destruct (decide (os_fork (os 0%nat) < 0)); [by simplify_eq|].
    destruct (decide (os_fork (os 0%nat) = 0)); [done|].
    eapply Hgo; [exact Hl| |done|done].
    destruct (decide (prev ≠ STDIN_FILENO)); simpl; set_solver.
  - destruct (decide (os_fork (os 0%nat) < 0)); [by simplify_eq|].
    destruct (decide (os_fork (os 0%nat) = 0)); [done|].
    eapply Hgo; [exact Hl| |done|done].
    destruct (decide (prev ≠ STDIN_FILENO)); simpl; set_solver.
Qed.

(** The log of job ids: a call that leaves the table alone adds nothing,
    and one that fills an empty slot adds the job id it put there. *)
Lemma added_by_refl tbl : added_by tbl tbl = [].
Proof.
  unfold added_by. induction tbl as [|j tbl IH]; [done|]. simpl.
  rewrite decide_False; [exact IH|]. by intros [? ?].
Qed.

Lemma added_by_insert (tbl : list job_t) i j0 jn :
  tbl !! i = Some j0 → pid j0 = 0 → pid jn ≠ 0 →
  added_by tbl (<[i := jn]> tbl) = [jid jn].
Proof.
  unfold added_by. revert i.
  induction tbl as [|j tbl IH]; intros i Hi Hz Hn; [done|].
  destruct i as [|i]; simpl in *.
  - simplify_eq. rewrite decide_True by done.
    f_equal. apply added_by_refl.
  - rewrite decide_False by (by intros [? ?]). by apply IH.
Qed.

(** [addjob] of a process that no live slot holds. *)
Lemma addjob_ok sh added p s c :
  table_ok sh → log_ok sh added →
  (1 ≤ p → p ∈ children sh ∧ ∀ i j, jobs sh !! i = Some j → pid j ≠ p) →
  let r := addjob (jobs sh) (next_jid sh) p s c in
  let sh' := set_next_jid r.2 (set_jobs r.1.2 sh) in
  table_ok sh' ∧ log_ok sh' (added ++ added_by (jobs sh) (jobs sh')) ∧
  ((r.1.2 = jobs sh ∧ r.2 = next_jid sh ∧ getjobpid (jobs sh) p = None ∧ 1 ≤ p)
   ∨ (r.1.2 = jobs sh ∧ r.2 = next_jid sh ∧ p < 1)
   ∨ (∃ i j0, jobs sh !! i = Some j0 ∧ pid j0 = 0 ∧
        r.1.2 = <[i := Job p (next_jid sh) s c]> (jobs sh) ∧
        r.2 = next_jid sh + 1 ∧ getjobpid r.1.2 p = Some i ∧ 1 ≤ p)).
Proof.
  intros Ht Hl Hfresh r sh'.
  assert (∀ sh1, jobs sh1 = jobs sh → next_jid sh1 = next_jid sh →
            children sh1 = children sh →
            table_ok sh1 ∧ log_ok sh1 (added ++ added_by (jobs sh) (jobs sh1)))
    as Hsame.
  { intros sh1 Hj Hn Hc. unfold table_ok, log_ok.
    rewrite Hj, Hn, Hc, added_by_refl, app_nil_r; done. }
  subst r sh'. unfold addjob. destruct (decide (p < 1)) as [Hlt|Hge].
  { simpl. destruct (Hsame (set_next_jid (next_jid sh) (set_jobs (jobs sh) sh)))
      as [??]; try done. split; [done|split; [done|]]. right. by left. }
  destruct (Hfresh ltac:(lia)) as [Hchild Hnew].
  destruct (first_slot (λ j, pid j = 0) (jobs sh)) as [i|] eqn:E.
  2:{ simpl. destruct (Hsame (set_next_jid (next_jid sh) (set_jobs (jobs sh) sh)))
        as [??]; try done. split; [done|split; [done|]]. left.
      split_and!; [done|done| |lia]. by apply getjobpid_absent. }
  pose proof E as E'. apply first_slot_Some in E' as (Hi & (j0 & Hj0 & Hp0) & _).
  destruct Ht as (Hlen & Hnj & Hshape & Huniq).
  destruct Hl as (Hinc & Hlt & Hin).
  set (new := Job p (next_jid sh) s c). simpl.
  assert (∀ k j', <[i := new]> (jobs sh) !! k = Some j' →
            (k = i ∧ j' = new) ∨ (k ≠ i ∧ jobs sh !! k = Some j')) as Hlk.
  { intros k j' Hk. apply list_lookup_insert_Some in Hk
      as [(-> & <- & _)|(Hne & Hk)]; eauto. }
  split; [|split].
  - split_and!; simpl; [by rewrite length_insert|lia| |].
    + intros k j' Hk. destruct (Hlk k j' Hk) as [[-> ->]|[Hne Hk']].
      * right. simpl. split_and!; [lia|done|lia|lia].
      * destruct (Hshape k j' Hk') as [?|(Hs1 & Hs2 & Hs3)]; [by left|].
        right. split_and!; [done|done|lia|lia].
    + intros k k' j1 j2 H1 H2 Hlive Heq.
      destruct (Hlk k j1 H1) as [[-> ->]|[Hne1 H1']];
        destruct (Hlk k' j2 H2) as [[-> ->]|[Hne2 H2']]; try done.
      * simpl in Heq. destruct Heq as [Heq|Heq].
        { by destruct (Hnew k' j2 H2'). }
        destruct (Hshape k' j2 H2') as [[??]|(Hs1 & Hs2 & Hs3)]; lia.
      * simpl in Heq. destruct Heq as [Heq|Heq].
        { by destruct (Hnew k j1 H1'). }
        destruct (Hshape k j1 H1') as [[??]|(Hs1 & Hs2 & Hs3)]; [done|lia].
      * by apply (Huniq k k' j1 j2).
  - simpl. rewrite (added_by_insert _ i j0 new) by (done || (simpl; lia)).
    split_and!; simpl.
    + intros a b ka kb Ha Hb Hab.
      apply lookup_app_Some in Ha as [Ha|[Hla Ha]];
        apply lookup_app_Some in Hb as [Hb|[Hlb Hb]].
      * by apply (Hinc a b).
      * apply list_lookup_singleton_Some in Hb as [_ <-].
        rewrite Forall_lookup in Hlt. by apply (Hlt a).
      * apply lookup_lt_Some in Hb. lia.
      * apply list_lookup_singleton_Some in Ha as [Ha _].
        apply list_lookup_singleton_Some in Hb as [Hb _]. lia.
    + apply Forall_app. split; [|by constructor; [lia|]].
      eapply Forall_impl; [exact Hlt|]. simpl. intros; lia.
    + intros k j' Hk Hlive. apply elem_of_app.
      destruct (Hlk k j' Hk) as [[-> ->]|[Hne Hk']].
      * right. simpl. set_solver.
      * left. by apply (Hin k j').
  - right. right. exists i, j0. split_and!; try done; [|lia].
    apply getjobpid_first with new; [done| |done|].
    + apply list_lookup_insert_eq. by apply lookup_lt_Some in Hj0.
    + intros k j' Hk Hj'. rewrite list_lookup_insert_ne in Hj' by lia.
      by apply (Hnew k j').
Qed.

(** The invariants read the table, the counter and the children only. *)
Lemma table_ok_grow sh sh' :
  table_ok sh → jobs sh' = jobs sh → next_jid sh' = next_jid sh →
  children sh ⊆ children sh' → table_ok sh'.
Proof.
  intros (Hlen & Hnj & Hshape & Huniq) Hj Hn Hc. unfold table_ok.
  rewrite Hj, Hn. split_and!; try done.
  intros i j Hi. destruct (Hshape i j Hi) as [?|(Hs1 & Hs2 & Hs3)]; [by left|].
  right. split_and!; [done|set_solver|lia|lia].
Qed.

Lemma log_ok_same sh sh' added :
  log_ok sh added → jobs sh' = jobs sh → next_jid sh' = next_jid sh →
  log_ok sh' added.
Proof. intros Hl Hj Hn. unfold log_ok. by rewrite Hj, Hn. Qed.


Lemma bgfg_job_found id sh i :
  bgfg_job id sh = inr i →
  (∃ k, getjobjid (jobs sh) k = Some i) ∨
  (∃ p, getjobpid (jobs sh) p = Some i).
Proof.
  unfold bgfg_job. intros Hb.
  destruct id as [|c rest].
  { destruct (getjobpid _ _) eqn:E; simplify_eq. eauto. }
  destruct (decide (c = "%"%char)) as [->|Hc].
  - destruct (getjobjid _ _) eqn:E; simplify_eq. eauto.
  - assert (∃ k, getjobpid (jobs sh) k = Some i) as [k Hk]; [|eauto].
    destruct c as [[] [] [] [] [] [] [] []];
      try (destruct (getjobpid _ _) eqn:E; simplify_eq; eauto).
    done.
Qed.

Lemma bgfg_job_message id sh sh' :
  bgfg_job id sh = inl sh' →
  jobs sh' = jobs sh ∧ next_jid sh' = next_jid sh ∧
  children sh' = children sh ∧ kills sh' = kills sh ∧
  term_pgrp sh' = term_pgrp sh ∧ ∃ line, out sh' = out sh ++ [line].
Proof.
  unfold bgfg_job. intros Hb.
  destruct id as [|c rest].
  { destruct (getjobpid _ _) eqn:E; simplify_eq. simpl. eauto 10. }
  destruct (decide (c = "%"%char)) as [->|Hc].
  - destruct (getjobjid _ _) eqn:E; simplify_eq. simpl. eauto 10.
  - destruct c as [[] [] [] [] [] [] [] []];
      try (destruct (getjobpid _ _) eqn:E; simplify_eq; simpl; eauto 10).
    done.
Qed.


(** A live slot is the one a search by its pid finds. *)
Lemma getjobpid_live sh i job :
  table_ok sh → jobs sh !! i = Some job → pid job ≠ 0 →
  getjobpid (jobs sh) (pid job) = Some i.
Proof.
  intros (Hlen & _ & _ & Huniq) Hi Hlive.
  apply getjobpid_first with job; try done.
  { apply lookup_lt_Some in Hi. lia. }
  intros k j' Hk Hj' Heq.
  assert (i = k); [|lia]. apply (Huniq i k job j'); auto.
Qed.

(** The three invariants read the table, the counter and the children
    only; and a place that allows what another allows keeps [fg_ok]. *)
Lemma world_ok_same sh md added sh' md' :
  world_ok (World sh md added) →
  jobs sh' = jobs sh → next_jid sh' = next_jid sh →
  children sh' = children sh →
  (∀ i p, fg_slot md i p → fg_slot md' i p) →
  world_ok (World sh' md' added).
Proof.
  intros (Ht & Hl & Hf) Hj Hn Hc Hmd. unfold world_ok; simpl in *.
  split; [|split].
  - eapply table_ok_grow; [exact Ht|done|done|by rewrite Hc].
  - by eapply log_ok_same.
  - rewrite Hj. intros i j Hi Hlive Hs. apply Hmd. by apply (Hf i j).
Qed.

(** The launch of a pipeline, from the prompt. *)
Lemma launch_ok os cmdline bg sh added sh' res :
  table_ok sh → log_ok sh added → fg_ok (jobs sh) Prompt →
  kernel_ok sh os →
  launch os cmdline bg sh = Some (sh', res) →
  world_ok (World sh'
              (match res with
               | Some leader => if bg then Launched leader cmdline
                                else Wait_call leader
               | None => Loop
               end)
              (added ++ added_by (jobs sh) (jobs sh'))).
Proof.
  intros Ht Hl Hf Hos Hpp. unfold launch in Hpp.
  destruct (bg && _); [done|].
  set (cc := length (split_commands cmdline bg)) in *.
  destruct (launch_stages os cc cc 0 STDIN_FILENO 0
              (set_sigchld_blocked true sh)) as [[sh1 [leader|]]|] eqn:Hls;
    [| |done].
  2:{ simplify_eq.
      apply launch_stages_keeps in Hls as (Hj & Hn & Hc & _). simpl in *.
      rewrite Hj, added_by_refl, app_nil_r.
      split; [|split]; simpl.
      - by eapply table_ok_grow.
      - by eapply log_ok_same.
      - rewrite Hj. intros i j Hi Hlive Hs. by destruct (Hf i j). }
  pose proof (launch_stages_keeps _ _ _ _ _ _ _ _ _ Hls)
    as (Hj & Hn & Hc & _). simpl in Hj, Hn, Hc.
  assert (table_ok sh1) as Ht1 by (by eapply table_ok_grow).
  assert (log_ok sh1 added) as Hl1 by (by eapply log_ok_same).
  assert (1 ≤ leader →
          leader ∈ children sh1 ∧
          ∀ i j, jobs sh1 !! i = Some j → pid j ≠ leader) as Hfresh.
  { intros Hpos. destruct cc as [|n].
    { simpl in Hls. simplify_eq. lia. }
    apply launch_stages_leader_first in Hls as (-> & Hlpos & Hin).
    split; [done|]. intros i j Hi Hp.
    destruct (Hos 0%nat) as [_ Hk]. destruct (Hk Hlpos) as [Hnot _].
    rewrite Hj in Hi. destruct Ht as (_ & _ & Hshape & _).
    destruct (Hshape i j Hi) as [[??]|(? & ? & ?)]; [lia|].
    apply Hnot. by rewrite <- Hp. }
  pose proof (addjob_ok sh1 added leader (if bg then BG else FG) cmdline
                Ht1 Hl1 Hfresh) as Hadd.
  destruct (addjob (jobs sh1) (next_jid sh1) leader (if bg then BG else FG)
              cmdline) as [[ret tbl] nj] eqn:Haj.
  simpl in Hadd. destruct Hadd as (Ht2 & Hl2 & Hcases).
  rewrite Hj in Hl2. simplify_eq. simpl.
  split; [|split]; simpl.
  - eapply table_ok_grow; [exact Ht2|done..].
  - eapply log_ok_same; [exact Hl2|done..].
  - intros i j Hi Hlive Hs.
    assert (bg = false ∧ pid j = leader) as [-> Hp].
    { destruct Hcases
        as [(-> & _)|[(-> & _)|(k & j0 & Hk & Hp0 & -> & _ & Hg & _)]].
      - rewrite Hj in Hi. by destruct (Hf i j Hi).
      - rewrite Hj in Hi. by destruct (Hf i j Hi).
      - apply list_lookup_insert_Some in Hi as [(-> & <- & _)|(Hne & Hi)].
        + simpl in Hs. by destruct bg.
        + rewrite Hj in Hi. by destruct (Hf i j Hi). }
    done.
Qed.

(** A line, from [fgets] to the first place [eval] leads to. *)
Lemma eval_start_ok os cmdline sh added sh' md :
  world_ok (World sh Prompt added) →
  kernel_ok sh os →
  eval_start os cmdline sh = Some (sh', md) →
  world_ok (World sh' md (added ++ added_by (jobs sh) (jobs sh'))).
Proof.
  intros Hw Hos Hev. unfold eval_start in Hev.
  assert (∀ sh1 md1, jobs sh1 = jobs sh → next_jid sh1 = next_jid sh →
            children sh1 = children sh →
            world_ok (World sh1 md1 (added ++ added_by (jobs sh) (jobs sh1))))
    as Hsame.
  { intros sh1 md1 Hj Hn Hc. rewrite Hj, added_by_refl, app_nil_r.
    eapply world_ok_same; [exact Hw|done|done|done|]. by intros i p []. }
  destruct (decide (MAX_ARGS ≤ _)%nat); [done|].
  destruct (strtok blanks cmdline) as [|a0 argv] eqn:Hargv.
  { simplify_eq. by apply Hsame. }
  destruct (decide (a0 = "exit")); [simplify_eq; by apply Hsame|].
  destruct (decide (a0 = "jobs")); [simplify_eq; by apply Hsame|].
  destruct (decide (a0 = "bg" ∨ a0 = "fg")).
  { destruct ((a0 :: argv) !! 1%nat) as [id|]; [|simplify_eq; by apply Hsame].
    destruct (bgfg_job id sh) as [sh1|i] eqn:Hb; simplify_eq.
    - apply bgfg_job_message in Hb as (Hj & Hn & Hc & _). by apply Hsame.
    - by apply Hsame. }
  destruct Hw as (Ht & Hl & Hf). simpl in *.
  destruct (launch os cmdline _ sh) as [[sh1 res]|] eqn:Hla; [|done].
  pose proof (launch_ok _ _ _ _ _ _ _ Ht Hl Hf Hos Hla) as Hok.
  destruct res as [leader|]; by simplify_eq.
Qed.

Local Ltac same :=
  match goal with
  | H : ∀ sh1 md1, _ |- _ => apply H; [done|done|done|simpl; tauto]
  end.

(** One statement of the main flow. *)
Lemma main_step_ok md sh added sh' md' :
  world_ok (World sh md added) →
  main_step md sh = Some (sh', md') →
  world_ok (World sh' md' added).
Proof.
  intros Hw Hst.
  assert (∀ sh1 md1, jobs sh1 = jobs sh → next_jid sh1 = next_jid sh →
            children sh1 = children sh →
            (∀ i p, fg_slot md i p → fg_slot md1 i p) →
            world_ok (World sh1 md1 added)) as Hsame.
  { intros sh1 md1 ????. by eapply world_ok_same. }
  destruct md as [| |i|i|i|i|bg i|bg i|bg i|leader cmd|p|p|job p| |];
    simpl in Hst; try done.
  - simplify_eq. same.
  - case_decide; [|simplify_eq; same].
    destruct (jobs sh !! i) as [j|]; [|done]. simplify_eq.
    case_decide; same.
  - destruct (jobs sh !! i) as [j|]; [|done]. simplify_eq. same.
  - destruct (jobs sh !! i) as [j|]; [|done]. simplify_eq. same.
  - destruct (jobs sh !! i) as [j|]; [|done]. simplify_eq. same.
  - destruct (jobs sh !! i) as [j|]; [|done]. simplify_eq. same.
  - (* [job->state = BG] or [job->state = FG] *)
    simplify_eq. destruct Hw as (Ht & Hl & Hf). simpl in *.
    unfold set_state. destruct (jobs sh !! i) as [job|] eqn:Hi.
    2:{ split; [done|split; [done|]]. simpl.
        intros k j Hk Hlive Hs. by destruct (Hf k j). }
    split; [|split]; simpl.
    + apply table_ok_same_ids; [done|by rewrite length_insert|].
      by apply insert_state_same_ids.
    + apply log_ok_same_ids; [done|]. by apply insert_state_same_ids.
    + intros k j Hk Hlive Hs.
      apply list_lookup_insert_Some in Hk as [(-> & <- & _)|(Hne & Hk)].
      * simpl in Hs. by destruct bg.
      * by destruct (Hf k j).
  - (* the [printf] of [bg], or the call [waitfg(job->pid)] *)
    destruct (jobs sh !! i) as [job|] eqn:Hi; [|done].
    destruct bg; simplify_eq; [same|].
    destruct Hw as (Ht & Hl & Hf). split; [done|split; [done|]]. simpl in *.
    intros k j Hk Hlive Hs. specialize (Hf k j Hk Hlive Hs). simpl in Hf.
    by simplify_eq.
  - simplify_eq. same.
  - simplify_eq. same.
  - (* [job = getjobpid(jobs, pid)] *)
    simplify_eq. destruct Hw as (Ht & Hl & Hf).
    split; [done|split; [done|]]. simpl in *.
    intros k j Hk Hlive Hs. specialize (Hf k j Hk Hlive Hs). simpl in Hf.
    split; [|done]. rewrite <- Hf. by apply getjobpid_live.
  - (* the test of the loop *)
    simplify_eq. destruct (waitfg_cond job p sh') eqn:Hc; [done|].
    destruct Hw as (Ht & Hl & Hf). split; [done|split; [done|]]. simpl in *.
    intros k j Hk Hlive Hs. destruct (Hf k j Hk Hlive Hs) as [-> Hp].
    unfold waitfg_cond in Hc. rewrite Hk in Hc.
    rewrite !bool_decide_eq_true_2 in Hc; done.
  - simplify_eq. same.
Qed.

Lemma step_ok w w' : world_ok w → step w w' → world_ok w'.
Proof.
  intros Hw Hstep. destruct Hstep as
    [os cmdline failed sh sh' md added Hnj Hos Hev|sh added
    |sh md sh' md' added Hst|t sh md added Hmd].
  - destruct failed.
    + apply (eval_start_ok os cmdline (perror "fgets error" sh));
        [|done|done]. eapply world_ok_same; [exact Hw|done..].
    + by eapply eval_start_ok.
  - eapply world_ok_same; [exact Hw|done|done|done|]. by intros i p [].
  - by eapply main_step_ok.
  - destruct Hw as (Ht & Hl & Hf). by apply sleep_ok.
Qed.

Lemma startup_ok self tm : world_ok (World (startup self tm) Loop []).
Proof.
  assert (∀ i j, jobs (startup self tm) !! i = Some j → j = Job 0 0 UNDEF "")
    as Hall.
  { assert (Forall (λ j, j = Job 0 0 UNDEF "") (jobs (startup self tm)))
      as HF by (repeat constructor).
    intros i j Hi. by eapply Forall_lookup_1 in HF. }
  split; [|split]; simpl.
  - split_and!; [done|done| |].
    + intros i j Hi. apply Hall in Hi as ->. by left.
    + intros i i' j j' Hi _ Hlive. by apply Hall in Hi as ->.
  - split_and!; [by intros ???? Ha|constructor|].
    intros i j Hi Hlive. by apply Hall in Hi as ->.
  - intros i j Hi Hlive. by apply Hall in Hi as ->.
Qed.

Lemma reachable_ok self tm w : reachable self tm w → world_ok w.
Proof.
  unfold reachable. intros Hr.
  eapply (rtc_ind_r (λ w, world_ok w)); [apply startup_ok| |exact Hr].
  intros w1 w2 _ Hstep Hok. by eapply step_ok.
Qed.

Lemma filter_none {A} (P : A → Prop) `{∀ x, Decision (P x)} (l : list A) :
  (∀ i x, l !! i = Some x → ¬ P x) → filter P l = [].
Proof.
  induction l as [|x l IH]; intros Hno; [done|].
  rewrite filter_cons, decide_False by apply (Hno 0%nat x eq_refl).
  apply IH. intros i y Hi. by apply (Hno (S i) y).
Qed.

(** A list in which at most one position satisfies [P] has at most one
    element that does. *)
Lemma filter_at_most_one {A} (P : A → Prop) `{∀ x, Decision (P x)}
    (l : list A) :
  (∀ i i' x y, l !! i = Some x → l !! i' = Some y → P x → P y → i = i') →
  (length (filter P l) ≤ 1)%nat.
Proof.
  induction l as [|x l IH]; intros Hone; [simpl; lia|].
  rewrite filter_cons. destruct (decide (P x)) as [Hx|Hx].
  - rewrite filter_none; [simpl; lia|].
    intros i y Hi Hy.
    by specialize (Hone 0%nat (S i) x y eq_refl Hi Hx Hy).
  - apply IH. intros i i' y z Hi Hi' Hy Hz.
    specialize (Hone (S i) (S i') y z Hi Hi' Hy Hz). lia.
Qed.

(** A schedule that runs is a path of the transition system. *)
Lemma fresh_pids_kernel_ok sh p :
  0 < p → set_Forall (λ c, c < p) (children sh) →
  kernel_ok sh (fresh_pids p).
Proof.
  intros Hp Hall i. unfold fresh_pids. simpl. split; [lia|].
  intros _. split; [|intros k; lia].
  intros Hin. apply Hall in Hin. lia.
Qed.

Lemma run_sound ms : ∀ w w', run ms w = Some w' → rtc step w w'.
Proof.
  induction ms as [|m ms IH]; intros [sh md added] w' Hrun; simpl in Hrun.
  { simplify_eq. apply rtc_refl. }
  destruct m as [p cmdline| | |t].
  - destruct md; try done. simpl in Hrun.
    case_bool_decide as Hc; [|done]. destruct Hc as (Hnj & Hp & Hall).
    destruct (eval_start (fresh_pids p) cmdline sh) as [[sh1 md1]|] eqn:Hev;
      [|done].
    eapply rtc_l; [|by apply IH].
    apply (step_line (fresh_pids p) cmdline false); [done| |done].
    by apply fresh_pids_kernel_ok.
  - destruct md; try done. simpl in Hrun.
    eapply rtc_l; [apply step_eof|by apply IH].
  - destruct (main_step md sh) as [[sh1 md1]|] eqn:Hst; [|done].
    eapply rtc_l; [by apply step_main|by apply IH].
  - destruct (is_gone md) eqn:Hg; [done|].
    eapply rtc_l; [|by apply IH]. apply step_tick. by intros ->.
Qed.

(** ** Job ids and process ids of live jobs *)

(** C6.  In every state the shell reaches from its start, two different
    slots that hold jobs hold different job ids and different process
    ids; the job ids read from the slots that [addjob] has filled, in the
    order of the calls, are strictly increasing, so none occurs twice;
    and the job id of a live job is one of them.  (Reachable: by command
    lines whose [fork] answers obey [kernel_ok], with the counter below
    [INT_MAX], by the statements of the main flow and by the handler
    wherever SIGCHLD is not blocked.) *)
Theorem reachable_ids_unique_increasing (self : Z) (tm : termios) (w : world) :
  reachable self tm w →
  (∀ i i' j j',
     jobs (w_shell w) !! i = Some j → jobs (w_shell w) !! i' = Some j' →
     live j → live j' → i ≠ i' → jid j ≠ jid j' ∧ pid j ≠ pid j') ∧
  (∀ a b ka kb,
     w_added w !! a = Some ka → w_added w !! b = Some kb →
     (a < b)%nat → ka < kb) ∧
  NoDup (w_added w) ∧
  (∀ i j, jobs (w_shell w) !! i = Some j → live j → jid j ∈ w_added w).
Proof.
  intros Hr. apply reachable_ok in Hr as ((_ & _ & _ & Huniq) & Hlog & _).
  destruct Hlog as (Hinc & _ & Hin). split_and!; [|done| |done].
  - intros i i' j j' Hi Hi' Hlive _ Hne. split; intros Heq; apply Hne.
    + apply (Huniq i i' j j'); auto.
    + apply (Huniq i i' j j'); auto.
  - apply NoDup_alt. intros a b k Ha Hb.
    destruct (Nat.lt_trichotomy a b) as [Hlt|[->|Hlt]]; [|done|].
    + specialize (Hinc a b k k Ha Hb Hlt). lia.
    + specialize (Hinc b a k k Hb Ha Hlt). lia.
Qed.

(** Two background jobs, one started after the other. *)
Lemma two_jobs_reachable :
  ∃ w, reachable 50 0 w ∧ w_added w = [1; 2] ∧
       jobs (w_shell w) !! 0%nat = Some (Job 100 1 BG ("a &" +:+ nl)) ∧
       jobs (w_shell w) !! 1%nat = Some (Job 200 2 BG ("b &" +:+ nl)).
Proof.
  destruct (run [Main; Line 100 ("a &" +:+ nl); Main;
                 Main; Line 200 ("b &" +:+ nl); Main]
              (World (startup 50 0) Loop [])) as [w|] eqn:E;
    [|by vm_compute in E].
  exists w. split; [by apply (run_sound _ _ _ E)|].
  vm_compute in E. by simplify_eq.
Qed.

Lemma reachable_ids_unique_increasing_witness :
  ∃ w, reachable 50 0 w ∧ w_added w = [1; 2] ∧
       jobs (w_shell w) !! 0%nat = Some (Job 100 1 BG ("a &" +:+ nl)) ∧
       jobs (w_shell w) !! 1%nat = Some (Job 200 2 BG ("b &" +:+ nl)) ∧
       jid (Job 100 1 BG ("a &" +:+ nl)) ≠ jid (Job 200 2 BG ("b &" +:+ nl)) ∧
       pid (Job 100 1 BG ("a &" +:+ nl)) ≠ pid (Job 200 2 BG ("b &" +:+ nl)) ∧
       NoDup (w_added w).
Proof.
  destruct two_jobs_reachable as (w & Hr & Hadded & H0 & H1).
  exists w. split; [exact Hr|]. split; [exact Hadded|].
  split; [exact H0|]. split; [exact H1|].
  destruct (reachable_ids_unique_increasing 50 0 w Hr) as (Hu & _ & Hnd & _).
  split; [|split; [|exact Hnd]].
  - exact (proj1 (Hu 0%nat 1%nat _ _ H0 H1 ltac:(simpl; unfold live; simpl; lia)
                    ltac:(unfold live; simpl; lia) ltac:(lia))).
  - exact (proj2 (Hu 0%nat 1%nat _ _ H0 H1 ltac:(simpl; unfold live; simpl; lia)
                    ltac:(unfold live; simpl; lia) ltac:(lia))).
Defined.

(** ** Foreground jobs *)


(** A foreground job being waited for. *)
Lemma foreground_job_reachable :
  ∃ w, reachable 50 0 w ∧ w_mode w = Waiting (Some 0%nat) 100 ∧
       jobs (w_shell w) !! 0%nat = Some (Job 100 1 FG ("vi" +:+ nl)).
Proof.
  destruct (run [Main; Line 100 ("vi" +:+ nl); Main; Main]
              (World (startup 50 0) Loop [])) as [w|] eqn:E;
    [|by vm_compute in E].
  exists w. split; [by apply (run_sound _ _ _ E)|].
  vm_compute in E. by simplify_eq.
Qed.

(** ** The uninterrupted run *)

Lemma process_pipeline_launch os cmdline bg sh :
  process_pipeline os cmdline bg sh =
  match launch os cmdline bg sh with
  | None => None
  | Some (sh', None) => Some (sh', Return)
  | Some (sh', Some leader) =>
      if bg then
        Some (printf ("[" +:+ pretty (pid2jid (jobs sh') leader) +:+ "] (" +:+
                      pretty leader +:+ ") " +:+ cmdline +:+ nl) sh', Return)
      else Some (sh', Waitfg leader)
  end.
Proof.
  unfold process_pipeline, launch.
  destruct (bg && _); [done|].
  destruct (launch_stages _ _ _ _ _ _ _) as [[sh1 [leader|]]|]; [|done|done].
  destruct (addjob _ _ _ _ _) as [[ret tbl] nj]. by destruct bg.
Qed.

(** The transition system has the runs of [eval] in which nothing
    interrupts the main flow: what [eval] computes for a line (other than
    [jobs], whose output is written piece by piece) is reached from the
    prompt by [step_line] followed by statements of the main flow. *)
Lemma eval_is_a_path os line sh sh' nx added :
  next_jid sh < INT_MAX → kernel_ok sh os →
  (∀ rest, strtok blanks line ≠ "jobs" :: rest) →
  eval os line sh = Some (sh', nx) →
  ∃ added', rtc step (World sh Prompt added) (World sh' (after nx) added').
Proof.
  intros Hnj Hos Hnojobs Hev.
  assert (∀ sh1 md1,
            eval_start os line sh = Some (sh1, md1) →
            rtc step (World sh1 md1 (added ++ added_by (jobs sh) (jobs sh1)))
                     (World sh' (after nx)
                        (added ++ added_by (jobs sh) (jobs sh1))) →
            ∃ added', rtc step (World sh Prompt added)
                               (World sh' (after nx) added')) as Hgo.
  { intros sh1 md1 Hst Hrest. eexists.
    eapply rtc_l; [|exact Hrest]. by apply (step_line os line false). }
  unfold eval in Hev. pose proof Hgo as Hgo'. unfold eval_start in Hgo.
  destruct (decide (MAX_ARGS ≤ _)%nat); [done|].
  destruct (strtok blanks line) as [|a0 argv] eqn:Hargv.
  { simplify_eq. eapply Hgo; [done|apply rtc_refl]. }
  destruct (decide (a0 = "exit")).
  { simplify_eq. eapply Hgo; [done|apply rtc_refl]. }
  destruct (decide (a0 = "jobs")) as [->|_]; [by destruct (Hnojobs argv)|].
  destruct (decide (a0 = "bg" ∨ a0 = "fg")) as [Hbf|_].
  { unfold do_bgfg in Hev.
    destruct ((a0 :: argv) !! 1%nat) as [id|].
    2:{ simplify_eq. eapply Hgo; [done|apply rtc_refl]. }
    destruct (bgfg_job id sh) as [sh1|i] eqn:Hb.
    { simplify_eq. eapply Hgo; [done|apply rtc_refl]. }
    assert (∃ job, jobs sh !! i = Some job) as [job Hi].
    { apply bgfg_job_found in Hb as [[k Hk]|[q Hq]].
      - apply first_slot_lookup in Hk as (j & Hj & _). eauto.
      - apply first_slot_lookup in Hq as (j & Hj & _). eauto. }
    rewrite Hi in Hev. simpl in Hev.
    assert (∀ st, jobs (set_state i st (kill (- pid job) SIGCONT sh)) !! i =
                  Some (Job (pid job) (jid job) st (cmdline job))) as Hi'.
    { intros st. unfold set_state. simpl. rewrite Hi. simpl.
      apply list_lookup_insert_eq. by apply lookup_lt_Some in Hi. }
    destruct (decide (a0 = "bg")) as [->|Hnb].
    - rewrite decide_True in Hev by done. simplify_eq.
      eapply Hgo; [done|]. rewrite bool_decide_eq_true_2 by done.
      eapply rtc_l; [apply step_main; simpl; by rewrite Hi|].
      eapply rtc_l; [by apply step_main|].
      eapply rtc_l; [apply step_main; simpl; by rewrite Hi'|].
      apply rtc_refl.
    - rewrite decide_False in Hev by congruence. simplify_eq.
      eapply Hgo; [done|]. rewrite bool_decide_eq_false_2 by done.
      eapply rtc_l; [apply step_main; simpl; by rewrite Hi|].
      eapply rtc_l; [by apply step_main|].
      eapply rtc_l; [apply step_main; simpl; by rewrite Hi'|].
      apply rtc_refl. }
  rewrite process_pipeline_launch in Hev.
  destruct (launch os line _ sh) as [[sh1 [leader|]]|] eqn:Hla; [| |done].
  2:{ simplify_eq. eapply Hgo; [done|apply rtc_refl]. }
  destruct (bool_decide (List.last (a0 :: argv) "" = "&")) eqn:Hbg.
  - simplify_eq. eapply Hgo; [done|].
    eapply rtc_l; [by apply step_main|]. apply rtc_refl.
  - simplify_eq. eapply Hgo; [done|apply rtc_refl].
Qed.

Lemma written_app l k : written (l ++ k) = written l +:+ written k.
Proof.
  unfold written. induction l as [|x l IH]; [done|].
  change (foldr append "" ((x :: l) ++ k))
    with (x +:+ foldr append "" (l ++ k)).
  change (foldr append "" (x :: l)) with (x +:+ foldr append "" l).
  by rewrite IH, string_app_assoc.
Qed.

(** [listjobs] without interruption: the statements from [Listing i] on
    write, piece by piece, the lines of the slots from [i] on, and change
    nothing else. *)
Lemma listing_is_a_path added n :
  ∀ i sh, (i + n = MAX_JOBS)%nat → length (jobs sh) = MAX_JOBS →
  ∃ sh', rtc step (World sh (Listing i) added) (World sh' Loop added) ∧
         set_out [] sh' = set_out [] sh ∧
         written (out sh') =
           written (out sh) +:+
           written (listjobs_line <$>
                      filter (λ j, pid j ≠ 0) (drop i (jobs sh))).
Proof.
  induction n as [|n IH]; intros i sh Hin Hlen.
  - exists sh. split; [|split; [done|]].
    + apply rtc_once, step_main. simpl. by rewrite decide_False by lia.
    + rewrite drop_ge by lia. simpl. by rewrite string_app_nil_r.
  - destruct (lookup_lt_is_Some_2 (jobs sh) i ltac:(lia)) as [j Hj].
    rewrite (drop_S _ j i Hj), filter_cons.
    destruct (decide (pid j ≠ 0)) as [Hlive|Hdead].
    + set (sh3 := printf (cmdline j +:+ nl)
                    (printf (if decide (state j = BG) then "Running "
                             else if decide (state j = FG) then "Foreground "
                             else "Stopped ")
                       (printf ("[" +:+ pretty (jid j) +:+ "] (" +:+
                                pretty (pid j) +:+ ") ") sh))).
      destruct (IH (S i) sh3 ltac:(lia) Hlen) as (sh' & Hpath & Hsame & Hout).
      exists sh'. split; [|split; [done|]].
      * eapply rtc_l.
        { apply step_main. simpl. rewrite decide_True by lia.
          by rewrite Hj, decide_True. }
        eapply rtc_l; [apply step_main; simpl; by rewrite Hj|].
        eapply rtc_l; [apply step_main; simpl; by rewrite Hj|].
        eapply rtc_l; [apply step_main; simpl; by rewrite Hj|].
        exact Hpath.
      * rewrite Hout. subst sh3. simpl.
        rewrite !written_app. unfold listjobs_line.
        change (written (?x :: ?l)) with (x +:+ written l).
        unfold written at 3 4 5. simpl.
        rewrite !string_app_nil_r, !string_app_assoc. done.
    + destruct (IH (S i) sh ltac:(lia) Hlen) as (sh' & Hpath & Hsame & Hout).
      exists sh'. split; [|done].
      eapply rtc_l; [|exact Hpath].
      apply step_main. simpl. rewrite decide_True by lia.
      by rewrite Hj, decide_False.
Qed.

(** The same for the line [jobs]: the path ends in a state that differs
    from the one [eval] computes in the cutting of the output only. *)
Lemma eval_jobs_is_a_path os line sh sh' nx added rest :
  next_jid sh < INT_MAX → kernel_ok sh os →
  length (jobs sh) = MAX_JOBS →
  strtok blanks line = "jobs" :: rest →
  eval os line sh = Some (sh', nx) →
  ∃ sh'' added',
    rtc step (World sh Prompt added) (World sh'' (after nx) added') ∧
    set_out [] sh'' = set_out [] sh' ∧
    written (out sh'') = written (out sh').
Proof.
  intros Hnj Hos Hlen Hargv Hev.
  assert (eval_start os line sh = Some (sh, Listing 0)) as Hst.
  { unfold eval, eval_start in *. rewrite Hargv in *.
    destruct (decide (MAX_ARGS ≤ _)%nat); [done|]. done. }
  assert (sh' = set_out (out sh ++ listjobs (jobs sh)) sh ∧ nx = Return)
    as [-> ->].
  { unfold eval in Hev. rewrite Hargv in Hev.
    destruct (decide (MAX_ARGS ≤ _)%nat); [done|]. simpl in Hev.
    by simplify_eq. }
  destruct (listing_is_a_path (added ++ added_by (jobs sh) (jobs sh))
              MAX_JOBS 0 sh ltac:(lia) Hlen) as (sh'' & Hpath & Hsame & Hout).
  exists sh'', (added ++ added_by (jobs sh) (jobs sh)).
  split; [|split].
  - eapply rtc_l; [|exact Hpath]. by apply (step_line os line false).
  - by rewrite Hsame.
  - rewrite Hout. simpl. rewrite written_app. unfold listjobs.
    rewrite drop_0, take_ge by lia. done.
Qed.

(** * Further properties of the code *)

(** ** The job table: adding, finding, deleting *)

Lemma getjobjid_first tbl k i j :
  (i < MAX_JOBS)%nat → tbl !! i = Some j → jid j = k →
  (∀ k' j', (k' < i)%nat → tbl !! k' = Some j' → jid j' ≠ k) →
  getjobjid tbl k = Some i.
Proof. intros. apply first_slot_Some. eauto 10. Qed.

Lemma pid2jid_first tbl p i j :
  (i < MAX_JOBS)%nat → tbl !! i = Some j → pid j = p →
  (∀ k j', (k < i)%nat → tbl !! k = Some j' → pid j' ≠ p) →
  pid2jid tbl p = jid j.
Proof.
  intros Hi Hj Hp Hmin. unfold pid2jid.
  assert (first_slot (λ j, pid j = p) tbl = Some i) as ->
    by (apply first_slot_Some; eauto 10).
  by rewrite Hj.
Qed.

(** A job that has been added is found again: by its process id, by its
    job id, and [pid2jid] gives the job id it received.  The table must
    not already hold the process id or the job id, or the searches stop
    at the older slot. *)
Theorem addjob_then_found (tbl : list job_t) (nj p s : Z) (c : string) :
  1 ≤ p → length tbl = MAX_JOBS →
  (∃ k j, tbl !! k = Some j ∧ pid j = 0) →
  (∀ k j, tbl !! k = Some j → pid j ≠ p ∧ jid j ≠ nj) →
  ∃ i, addjob tbl nj p s c = (1, <[i := Job p nj s c]> tbl, nj + 1) ∧
       getjobpid (<[i := Job p nj s c]> tbl) p = Some i ∧
       getjobjid (<[i := Job p nj s c]> tbl) nj = Some i ∧
       pid2jid (<[i := Job p nj s c]> tbl) p = nj.
Proof.
  intros Hp Hlen (k & j & Hk & Hz) Hnew.
  destruct (first_slot (λ j, pid j = 0) tbl) as [i|] eqn:E.
  2:{ eapply first_slot_None in E; [by destruct E| |exact Hk].
      apply lookup_lt_Some in Hk. lia. }
  exists i. unfold addjob. rewrite decide_False by lia. rewrite E.
  apply first_slot_Some in E as (Hi & (j0 & Hj0 & Hp0) & Hmin).
  assert (<[i := Job p nj s c]> tbl !! i = Some (Job p nj s c)) as Hnewslot.
  { apply list_lookup_insert_eq. by apply lookup_lt_Some in Hj0. }
  assert (∀ k' j', (k' < i)%nat → <[i := Job p nj s c]> tbl !! k' = Some j' →
            pid j' ≠ p ∧ jid j' ≠ nj) as Hbefore.
  { intros k' j' Hk' Hj'. rewrite list_lookup_insert_ne in Hj' by lia.
    by apply (Hnew k' j'). }
  split_and!; [done| | |].
  - apply getjobpid_first with (Job p nj s c); try done.
    intros k' j' ??. by apply (Hbefore k' j').
  - apply getjobjid_first with (Job p nj s c); try done.
    intros k' j' ??. by apply (Hbefore k' j').
  - erewrite pid2jid_first; [|exact Hi|exact Hnewslot|done|]; [done|].
    intros k' j' ??. by apply (Hbefore k' j').
Qed.

Lemma addjob_then_found_witness :
  ∃ i, addjob (initjobs jobs_static) 1 100 BG "ls &" =
         (1, <[i := Job 100 1 BG "ls &"]> (initjobs jobs_static), 2) ∧
       getjobpid (<[i := Job 100 1 BG "ls &"]> (initjobs jobs_static)) 100 =
         Some i ∧
       getjobjid (<[i := Job 100 1 BG "ls &"]> (initjobs jobs_static)) 1 =
         Some i ∧
       pid2jid (<[i := Job 100 1 BG "ls &"]> (initjobs jobs_static)) 100 = 1.
Proof.
  apply (addjob_then_found (initjobs jobs_static) 1 100 BG "ls &").
  - lia.
  - reflexivity.
  - by exists 0%nat, (Job 0 0 UNDEF "").
  - intros k j Hk.
    assert (Forall (λ j, pid j ≠ 100 ∧ jid j ≠ 1) (initjobs jobs_static))
      as HF by (repeat constructor; simpl; lia).
    by eapply Forall_lookup_1 in HF.
Defined.

(** Adding a job into a cleared slot and deleting it again gives the
    table back, but not the job id: the counter stays one further, so the
    next job gets a new id in the same slot.  The counter is taken two
    steps below [INT_MAX] at least, where both [next_jid++] are the
    successor. *)
Theorem addjob_deletejob_round_trip (tbl : list job_t) (nj p s : Z)
    (c : string) (i : nat) :
  1 ≤ p → length tbl = MAX_JOBS → nj + 1 < INT_MAX →
  tbl !! i = Some (Job 0 0 UNDEF "") →
  (∀ k j, (k < i)%nat → tbl !! k = Some j → pid j ≠ 0) →
  (∀ k j, tbl !! k = Some j → pid j ≠ p) →
  ∃ tbl',
    addjob tbl nj p s c = (1, tbl', nj + 1) ∧
    deletejob tbl' p = (1, tbl) ∧
    ∀ p2 s2 c2, 1 ≤ p2 →
      addjob tbl (nj + 1) p2 s2 c2 =
        (1, <[i := Job p2 (nj + 1) s2 c2]> tbl, nj + 2).
Proof.
  intros Hp Hlen _ Hi Hmin Hnew.
  assert (i < MAX_JOBS)%nat as Hlt by (apply lookup_lt_Some in Hi; lia).
  exists (<[i := Job p nj s c]> tbl). split_and!.
  - by apply (addjob_first tbl nj p s c i (Job 0 0 UNDEF "")).
  - erewrite deletejob_first with (i := i) (j := Job p nj s c); try done.
    + by rewrite list_insert_insert_eq, list_insert_id.
    + apply list_lookup_insert_eq. by apply lookup_lt_Some in Hi.
    + intros k j' Hk Hj'. rewrite list_lookup_insert_ne in Hj' by lia.
      by apply (Hnew k j').
  - intros p2 s2 c2 Hp2.
    replace (nj + 2) with (nj + 1 + 1) by lia.
    by apply (addjob_first tbl (nj + 1) p2 s2 c2 i (Job 0 0 UNDEF "")).
Qed.

Lemma addjob_deletejob_round_trip_witness :
  ∃ tbl',
    addjob (initjobs jobs_static) 1 100 FG "ls" = (1, tbl', 1 + 1) ∧
    deletejob tbl' 100 = (1, initjobs jobs_static) ∧
    ∀ p2 s2 c2, 1 ≤ p2 →
      addjob (initjobs jobs_static) (1 + 1) p2 s2 c2 =
        (1, <[0%nat := Job p2 (1 + 1) s2 c2]> (initjobs jobs_static), 1 + 2).
Proof.
  apply (addjob_deletejob_round_trip (initjobs jobs_static) 1 100 FG "ls" 0).
  - lia.
  - reflexivity.
  - unfold INT_MAX. lia.
  - reflexivity.
  - intros k j Hk. lia.
  - intros k j Hk.
    assert (Forall (λ j, pid j ≠ 100) (initjobs jobs_static))
      as HF by (repeat constructor; simpl; lia).
    by eapply Forall_lookup_1 in HF.
Defined.

(** [deletejob] clears one slot, the first that holds the process id.
    When no other slot holds it the job is gone for every search, and a
    second [deletejob] returns 0 and changes nothing. *)
Theorem deletejob_then_absent (tbl : list job_t) (p : Z) (i : nat) (j : job_t) :
  1 ≤ p → length tbl = MAX_JOBS →
  tbl !! i = Some j → pid j = p →
  (∀ k j', tbl !! k = Some j' → pid j' = p → k = i) →
  deletejob tbl p = (1, <[i := Job 0 0 UNDEF ""]> tbl) ∧
  getjobpid (<[i := Job 0 0 UNDEF ""]> tbl) p = None ∧
  pid2jid (<[i := Job 0 0 UNDEF ""]> tbl) p = 0 ∧
  deletejob (<[i := Job 0 0 UNDEF ""]> tbl) p =
    (0, <[i := Job 0 0 UNDEF ""]> tbl).
Proof.
  intros Hp Hlen Hi Hpj Huniq.
  assert (i < MAX_JOBS)%nat as Hlt by (apply lookup_lt_Some in Hi; lia).
  assert (∀ k j', <[i := Job 0 0 UNDEF ""]> tbl !! k = Some j' → pid j' ≠ p)
    as Habs.
  { intros k j' Hk. apply list_lookup_insert_Some in Hk
      as [(-> & <- & _)|(Hne & Hk)]; [simpl; lia|].
    intros Hpk. by destruct (Hne (eq_sym (Huniq k j' Hk Hpk))). }
  split_and!.
  - apply (deletejob_first tbl p i j); try done.
    intros k j' Hk Hj' Hpk. specialize (Huniq k j' Hj' Hpk). lia.
  - by apply getjobpid_absent.
  - pose proof (getjobpid_absent _ _ Habs) as Hg. unfold getjobpid in Hg.
    unfold pid2jid. by rewrite Hg.
  - by apply deletejob_absent.
Qed.

Lemma deletejob_then_absent_witness :
  deletejob (<[2%nat := Job 7 3 ST "vi"]> (initjobs jobs_static)) 7 =
    (1, <[2%nat := Job 0 0 UNDEF ""]>
          (<[2%nat := Job 7 3 ST "vi"]> (initjobs jobs_static))).
Proof.
  apply (deletejob_then_absent
           (<[2%nat := Job 7 3 ST "vi"]> (initjobs jobs_static)) 7 2
           (Job 7 3 ST "vi")).
  - lia.
  - reflexivity.
  - reflexivity.
  - reflexivity.
  - intros k j' Hk Hp.
    do 16 (destruct k as [|k]; [by simplify_eq/=|]). done.
Defined.

(** ** [initjobs] and [listjobs] *)

(** [initjobs] clears all 16 slots whatever they held: [jobs] then prints
    nothing, no search for an id other than 0 succeeds, and a search for
    id 0 answers slot 0. *)
Theorem initjobs_clears (tbl : list job_t) :
  length tbl = MAX_JOBS →
  initjobs tbl = replicate MAX_JOBS (Job 0 0 UNDEF "") ∧
  listjobs (initjobs tbl) = [] ∧
  (∀ k, k ≠ 0 → getjobpid (initjobs tbl) k = None ∧
                getjobjid (initjobs tbl) k = None ∧
                pid2jid (initjobs tbl) k = 0) ∧
  getjobpid (initjobs tbl) 0 = Some 0%nat ∧
  getjobjid (initjobs tbl) 0 = Some 0%nat.
Proof.
  intros Hlen.
  assert (initjobs tbl = replicate MAX_JOBS (Job 0 0 UNDEF "")) as ->.
  { unfold initjobs. rewrite drop_ge, app_nil_r, take_ge by lia.
    rewrite <- Hlen. clear Hlen.
    induction tbl as [|j tbl IH]; [done|]. simpl. by f_equal. }
  split; [done|]. split; [done|]. split; [|done].
  intros k Hk.
  assert (∀ i j, replicate MAX_JOBS (Job 0 0 UNDEF "") !! i = Some j →
            pid j ≠ k ∧ jid j ≠ k) as Hall.
  { intros i j Hi. apply lookup_replicate in Hi as [-> _]. done. }
  assert (getjobpid (replicate MAX_JOBS (Job 0 0 UNDEF "")) k = None) as Hg.
  { apply getjobpid_absent. intros i j Hi. by apply (Hall i j). }
  split_and!; [done| |].
  - apply first_slot_None. intros i j _ Hi. by apply (Hall i j).
  - unfold getjobpid in Hg. unfold pid2jid. by rewrite Hg.
Qed.

Lemma initjobs_clears_witness :
  initjobs (<[3%nat := Job 9 4 ST "vi"]> jobs_static) =
  replicate MAX_JOBS (Job 0 0 UNDEF "").
Proof.
  apply (initjobs_clears (<[3%nat := Job 9 4 ST "vi"]> jobs_static)).
  reflexivity.
Defined.

Lemma listjobs_app (l1 l2 : list job_t) :
  (length (l1 ++ l2) ≤ MAX_JOBS)%nat →
  listjobs (l1 ++ l2) =
  (listjobs_line <$> filter (λ j, pid j ≠ 0) l1) ++
  (listjobs_line <$> filter (λ j, pid j ≠ 0) l2).
Proof.
  intros Hlen. unfold listjobs.
  by rewrite take_ge, filter_app, fmap_app by done.
Qed.

(** What [jobs] prints follows the table: a line is printed exactly for
    the slots whose pid is not 0; deleting a job takes its line out and
    leaves the others, in their order. *)
Theorem listjobs_follows_table (tbl : list job_t) :
  length tbl = MAX_JOBS →
  (∀ line, line ∈ listjobs tbl ↔
           ∃ i j, tbl !! i = Some j ∧ pid j ≠ 0 ∧ line = listjobs_line j) ∧
  (∀ p i j, 1 ≤ p → tbl !! i = Some j → pid j = p →
     (∀ k j', (k < i)%nat → tbl !! k = Some j' → pid j' ≠ p) →
     ∃ before after,
       listjobs tbl = before ++ listjobs_line j :: after ∧
       listjobs (deletejob tbl p).2 = before ++ after).
Proof.
  intros Hlen. split.
  - intros line. unfold listjobs. rewrite take_ge by lia.
    rewrite list_elem_of_fmap. split.
    + intros (j & -> & Hin). apply list_elem_of_filter in Hin as [Hp Hin].
      apply list_elem_of_lookup in Hin as [i Hi]. eauto.
    + intros (i & j & Hi & Hp & ->). exists j. split; [done|].
      apply list_elem_of_filter. split; [done|].
      apply list_elem_of_lookup. eauto.
  - intros p i j Hp Hi Hpj Hmin.
    assert (i < MAX_JOBS)%nat as Hlt by (apply lookup_lt_Some in Hi; lia).
    rewrite (deletejob_first tbl p i j) by done. simpl.
    pose proof (take_drop_middle tbl i j Hi) as Hsplit.
    exists (listjobs_line <$> filter (λ j, pid j ≠ 0) (take i tbl)),
           (listjobs_line <$> filter (λ j, pid j ≠ 0) (drop (S i) tbl)).
    split.
    + rewrite <- Hsplit at 1. rewrite listjobs_app by (rewrite Hsplit; lia).
      rewrite filter_cons, decide_True by lia. done.
    + rewrite <- Hsplit at 1.
      rewrite insert_app_r_alt by (rewrite length_take; lia).
      replace (i - length (take i tbl))%nat with 0%nat
        by (rewrite length_take; lia).
      simpl. rewrite listjobs_app.
      * by rewrite filter_cons, decide_False by (simpl; lia).
      * rewrite length_app, length_take. simpl. rewrite length_drop. lia.
Qed.

Lemma listjobs_follows_table_witness :
  ∃ before after,
    listjobs (<[1%nat := Job 7 3 ST "vi"]> (initjobs jobs_static)) =
      before ++ listjobs_line (Job 7 3 ST "vi") :: after ∧
    listjobs (deletejob (<[1%nat := Job 7 3 ST "vi"]> (initjobs jobs_static))
                7).2 = before ++ after.
Proof.
  destruct (listjobs_follows_table
              (<[1%nat := Job 7 3 ST "vi"]> (initjobs jobs_static)))
    as [_ H]; [reflexivity|].
  apply (H 7 1%nat (Job 7 3 ST "vi")); [lia|reflexivity|reflexivity|].
  intros k j' Hk Hj'. destruct k as [|k]; [|lia].
  simpl in Hj'. injection Hj' as <-. simpl. lia.
Defined.

(** ** [fg] and [bg] *)

(** The error paths of [do_bgfg]: without an argument, with a [%jid] no
    slot has, with a pid no slot has.  One line is printed and nothing
    else happens: no signal, no change of the table, back to the prompt.
    The number typed is one that fits an [int], so that it is the number
    the C [atoi] returns. *)
Theorem do_bgfg_no_such_job (sh : shell) (argv : list string) :
  (argv !! 1%nat = None →
   do_bgfg argv sh = (printf ("requires PID or %jobid" +:+ nl) sh, Return)) ∧
  (∀ rest,
     argv !! 1%nat = Some (String "%" rest) →
     INT_MIN ≤ atoi rest ≤ INT_MAX →
     (∀ i j, jobs sh !! i = Some j → jid j ≠ atoi rest) →
     do_bgfg argv sh =
       (printf ("%" +:+ pretty (atoi rest) +:+ ": No such job" +:+ nl) sh,
        Return)) ∧
  (∀ id,
     argv !! 1%nat = Some id →
     (∀ rest, id ≠ String "%" rest) →
     INT_MIN ≤ atoi id ≤ INT_MAX →
     (∀ i j, jobs sh !! i = Some j → pid j ≠ atoi id) →
     do_bgfg argv sh =
       (printf ("(" +:+ pretty (atoi id) +:+ "): No such process" +:+ nl) sh,
        Return)).
Proof.
  split_and!.
  - intros Harg. unfold do_bgfg. by rewrite Harg.
  - intros rest Harg _ Habs. unfold do_bgfg. rewrite Harg. simpl.
    assert (getjobjid (jobs sh) (atoi rest) = None) as ->; [|done].
    apply first_slot_None. intros i j _ Hi. by apply (Habs i j).
  - intros id Harg Hid _ Habs. unfold do_bgfg. rewrite Harg.
    assert (bgfg_job id sh =
            inl (printf ("(" +:+ pretty (atoi id) +:+ "): No such process"
                         +:+ nl) sh)) as ->; [|done].
    unfold bgfg_job. rewrite (getjobpid_absent _ _ Habs).
    destruct id as [|c rest]; [done|].
    destruct (decide (c = "%"%char)) as [->|Hc]; [by destruct (Hid rest)|].
    by destruct c as [[] [] [] [] [] [] [] []].
Qed.







(** ** The reaper: what it leaves alone *)

Lemma slot_reaped_trans j1 j2 j3 :
  slot_reaped j1 j2 → slot_reaped j2 j3 → slot_reaped j1 j3.
Proof.
  unfold slot_reaped.
  intros [->|[->|[Hp ->]]] [->|[->|[Hp' ->]]]; simpl in *; auto.
  done.
Qed.

Lemma reaped_from_refl sh : reaped_from sh sh.
Proof.
  unfold reaped_from. split_and!; try done.
  intros i j' Hi. exists j'. split; [done|]. by left.
Qed.

Lemma reaped_from_trans sh1 sh2 sh3 :
  reaped_from sh1 sh2 → reaped_from sh2 sh3 → reaped_from sh1 sh3.
Proof.
  unfold reaped_from.
  intros (Hl & Hs & Hc & ? & ? & ? & ? & ? & ? & ? & ? & ? & ?)
         (Hl' & Hs' & Hc' & ? & ? & ? & ? & ? & ? & ? & ? & ? & ?).
  split_and!; try congruence; [|set_solver].
  intros i j3 Hj3. destruct (Hs' i j3 Hj3) as (j2 & Hj2 & R23).
  destruct (Hs i j2 Hj2) as (j1 & Hj1 & R12).
  exists j1. split; [done|]. by eapply slot_reaped_trans.
Qed.

Lemma reaped_from_insert sh i j j' :
  jobs sh !! i = Some j → slot_reaped j j' →
  ∀ k x, <[i := j']> (jobs sh) !! k = Some x →
    ∃ y, jobs sh !! k = Some y ∧ slot_reaped y x.
Proof.
  intros Hi Hr k x Hk.
  apply list_lookup_insert_Some in Hk as [(-> & <- & _)|(Hne & Hk)]; [eauto|].
  exists x. split; [done|]. by left.
Qed.

Lemma sigchld_handler_reaped (evs : list (Z * wstatus)) (sh : shell) :
  reaped_from sh (sigchld_handler evs sh).
Proof.
  revert sh. induction evs as [|[p status] evs IH]; intros sh;
    [apply reaped_from_refl|].
  simpl. destruct (decide (p > 0)) as [Hp|]; [|apply reaped_from_refl].
  assert (reaped_from sh (set_jobs (deletejob (jobs sh) p).2
                            (set_children (children sh ∖ {[p]}) sh)))
    as Hreap.
  { unfold reaped_from, deletejob. simpl.
    destruct (decide (p < 1)); [lia|].
    destruct (first_slot _ (jobs sh)) as [i|] eqn:E; simpl.
    - apply first_slot_lookup in E as (j & Hj & Hpj). rewrite Hj. simpl.
      rewrite length_insert. split_and!; try done; [|set_solver].
      apply reaped_from_insert with j; [done|]. right. by left.
    - split_and!; try done; [|set_solver].
      intros i j' Hi. exists j'. split; [done|]. by left. }
  destruct status as [code|sig|sig].
  - eapply reaped_from_trans; [exact Hreap|apply IH].
  - eapply reaped_from_trans; [exact Hreap|apply IH].
  - destruct (getjobpid (jobs sh) p) as [i|] eqn:E; [|apply IH].
    pose proof E as E'. apply first_slot_lookup in E' as (j & Hj & Hpj).
    rewrite Hj. eapply reaped_from_trans; [|apply IH].
    unfold reaped_from. simpl. rewrite length_insert.
    split_and!; try done.
    apply reaped_from_insert with j; [done|].
    right. right. split; [lia|done].
Qed.

Lemma sleep_reaped_from t sh :
  reaped_from (match tk_modes t with
               | Some m => set_term_modes m sh
               | None => sh
               end) (sleep t sh).
Proof.
  unfold sleep. destruct (tk_modes t); simpl;
    (destruct (sigchld_blocked sh);
     [apply reaped_from_refl|apply sigchld_handler_reaped]).
Qed.

(** Whatever the kernel reports, the reaper only clears slots or marks
    live ones stopped.  It adds no job, changes no pid and no jid, sends
    no signal, writes nothing to stderr, and leaves the counter, the
    terminal, the signal mask and the descriptors as they are; the set of
    children only shrinks. *)
Theorem sigchld_handler_only_clears_or_stops (evs : list (Z * wstatus))
    (sh : shell) :
  let sh' := sigchld_handler evs sh in
  length (jobs sh') = length (jobs sh) ∧
  (∀ i j', jobs sh' !! i = Some j' →
     ∃ j, jobs sh !! i = Some j ∧
       (j' = j ∨ j' = Job 0 0 UNDEF "" ∨
        (pid j ≠ 0 ∧ j' = Job (pid j) (jid j) ST (cmdline j)))) ∧
  children sh' ⊆ children sh ∧
  next_jid sh' = next_jid sh ∧
  term_pgrp sh' = term_pgrp sh ∧ term_modes sh' = term_modes sh ∧
  sigchld_blocked sh' = sigchld_blocked sh ∧
  fds sh' = fds sh ∧ pgrps sh' = pgrps sh ∧
  kills sh' = kills sh ∧ err sh' = err sh.
Proof.
  intros sh'.
  destruct (sigchld_handler_reaped evs sh)
    as (Hl & Hs & Hc & Hn & _ & _ & Htp & Htm & Hb & Hf & Hg & Hk & He).
  split; [exact Hl|]. split; [|by split_and!].
  intros i j' Hj'. destruct (Hs i j' Hj') as (j & Hj & Hr).
  exists j. split; [done|exact Hr].
Qed.

(** Once the termination of process [p] has been handled no slot holds
    [p] any more, whatever else is reported afterwards: a job whose leader
    has been waited for does not stay in the table. *)
Theorem reaped_leader_has_no_job (sh : shell) (p : Z) (status : wstatus)
    (evs : list (Z * wstatus)) :
  0 < p → table_ok sh →
  (∃ n, status = WEXITED n ∨ status = WSIGNALED n) →
  ∀ i j, jobs (sigchld_handler ((p, status) :: evs) sh) !! i = Some j →
         pid j ≠ p.
Proof.
  intros Hp Ht Hst i j Hi.
  assert (sigchld_handler ((p, status) :: evs) sh =
          sigchld_handler evs
            (set_jobs (deletejob (jobs sh) p).2
               (set_children (children sh ∖ {[p]}) sh))) as Heq.
  { simpl. destruct (decide (p > 0)); [|lia].
    by destruct Hst as [n [-> | ->]]. }
  rewrite Heq in Hi. clear Heq.
  set (sh1 := set_jobs (deletejob (jobs sh) p).2
                (set_children (children sh ∖ {[p]}) sh)) in *.
  assert (∀ k x, jobs sh1 !! k = Some x → pid x ≠ p) as Hgone.
  { destruct Ht as (Hlen & _ & _ & Huniq). simpl.
    destruct (deletejob_cases (jobs sh) p) as
      [(i0 & j0 & Hj0 & Hpj0 & ->)|[Habs ->]]; [lia|done| |exact Habs].
    intros k x Hk. simpl in Hk.
    apply list_lookup_insert_Some in Hk as [(-> & <- & _)|(Hne & Hk)];
      [simpl; lia|].
    intros Hpx. apply Hne. apply (Huniq i0 k j0 x Hj0 Hk); [lia|].
    left. congruence. }
  destruct (sigchld_handler_reaped evs sh1)
    as (_ & Hslots & _).
  destruct (Hslots i j Hi) as (x & Hx & [->|[->|[_ ->]]]); simpl.
  - by apply (Hgone i x).
  - lia.
  - by apply (Hgone i x).
Qed.

Lemma reaped_leader_has_no_job_witness :
  Forall (λ j, pid j ≠ 100)
    (jobs (sigchld_handler [(100, WEXITED 0)]
             (set_jobs (<[0%nat := Job 100 1 FG "ls"]> (initjobs jobs_static))
                (set_children {[100]} (set_next_jid 2 (startup 50 0)))))).
Proof.
  apply Forall_lookup_2.
  apply (reaped_leader_has_no_job
           (set_jobs (<[0%nat := Job 100 1 FG "ls"]> (initjobs jobs_static))
              (set_children {[100]} (set_next_jid 2 (startup 50 0))))
           100 (WEXITED 0) []).
  - lia.
  - split_and!; simpl.
    + reflexivity.
    + lia.
    + intros i j Hi.
      do 16 (destruct i as [|i]; [simplify_eq/=; first
        [left; split; reflexivity
        |right; split_and!; [lia|set_solver|lia|lia]]|]).
      done.
    + intros i i' j j' Hi Hi' Hlive Heq.
      destruct i as [|i].
      * simplify_eq/=.
        do 16 (destruct i' as [|i']; [simplify_eq/=; first
          [reflexivity|destruct Heq; lia]|]).
        done.
      * do 15 (destruct i as [|i]; [simplify_eq/=; lia|]). done.
  - exists 0. by left.
Defined.

(** ** The foreground wait *)

Lemma waitfg_loop_returns env :
  ∀ job p sh1 sh2,
  waitfg_loop env job p sh1 = Some sh2 →
  waitfg_cond job p sh2 = false ∧
  reaped_from (set_term_modes (term_modes sh2) sh1) sh2.
Proof.
  induction env as [|t env IH]; intros job p sh1 sh2 Hl; simpl in Hl.
  - destruct (waitfg_cond job p sh1) eqn:Hc; [done|]. simplify_eq.
    split; [done|]. destruct sh2. apply reaped_from_refl.
  - destruct (waitfg_cond job p sh1) eqn:Hc.
    + apply IH in Hl as [Hc2 Hr]. split; [done|].
      eapply reaped_from_trans; [|exact Hr].
      pose proof (sleep_reaped_from t sh1) as Hs.
      destruct Hs as (H1 & H2 & H3 & H4 & H5 & H6 & H7 & H8 & H9 & H10 &
                      H11 & H12 & H13).
      unfold reaped_from. simpl.
      destruct (tk_modes t); simpl in *; split_and!; done.
    + simplify_eq. split; [done|]. destruct sh2. apply reaped_from_refl.
Qed.

Lemma waitfg_loop_done env job p sh :
  waitfg_cond job p sh = false → waitfg_loop env job p sh = Some sh.
Proof. intros Hc. destruct env; simpl; by rewrite Hc. Qed.

(** When [waitfg] returns, the terminal's foreground group is the
    shell's, the slot it waited on no longer holds the job in state FG,
    and apart from the terminal and from what the reaper did (slots
    cleared or stopped, children waited for, lines printed) the state is
    the one it was called in; in particular the saved terminal modes are
    still saved and nothing has put them back. *)
Theorem waitfg_on_return (env : list tick) (p : Z) (sh sh' : shell) :
  waitfg env p sh = Some sh' →
  term_pgrp sh' = shell_pgid sh ∧
  waitfg_cond (getjobpid (jobs sh) p) p sh' = false ∧
  reaped_from
    (set_term_modes (term_modes sh') (set_term_pgrp (shell_pgid sh) sh)) sh'.
Proof.
  unfold waitfg, waitfg_enter, waitfg_leave, tcsetpgrp. simpl.
  intros Hw.
  destruct (waitfg_loop env (getjobpid (jobs sh) p) p (set_term_pgrp p sh))
    as [sh2|] eqn:Hl; [|done].
  simpl in Hw. simplify_eq.
  apply waitfg_loop_returns in Hl as [Hc Hr].
  destruct Hr as (H1 & H2 & H3 & H4 & H5 & H6 & H7 & H8 & H9 & H10 &
                  H11 & H12 & H13). simpl in *.
  split_and!; [done| |].
  - unfold waitfg_cond in *. simpl. done.
  - unfold reaped_from. simpl. split_and!; done.
Qed.

Lemma waitfg_on_return_witness :
  ∃ sh',
    waitfg [Tick (Some 7) [(100, WEXITED 0)]] 100
      (set_jobs (<[0%nat := Job 100 1 FG "vi"]> (initjobs jobs_static))
         (set_children {[100]} (set_next_jid 2 (startup 50 0)))) = Some sh' ∧
    term_pgrp sh' = 50 ∧ term_modes sh' = 7 ∧ shell_tmodes sh' = 0 ∧
    jobs sh' = initjobs jobs_static.
Proof.
  destruct (waitfg [Tick (Some 7) [(100, WEXITED 0)]] 100
              (set_jobs (<[0%nat := Job 100 1 FG "vi"]> (initjobs jobs_static))
                 (set_children {[100]} (set_next_jid 2 (startup 50 0)))))
    as [sh'|] eqn:E; [|by vm_compute in E].
  exists sh'. split; [reflexivity|].
  destruct (waitfg_on_return _ _ _ _ E)
    as (Hp & _ & _ & _ & _ & _ & _ & Hs & _).
  split; [exact Hp|].
  vm_compute in E. injection E as <-. by vm_compute.
Defined.

(** With SIGCHLD blocked the reaper never runs, so a foreground job is
    never seen to end: [waitfg] does not return, however long it sleeps.
    (This is where a shell is after a launch that failed, which leaves the
    signal blocked.) *)
Theorem waitfg_blocked_never_returns (env : list tick) (p : Z) (sh : shell)
    (i : nat) (job : job_t) :
  sigchld_blocked sh = true →
  getjobpid (jobs sh) p = Some i →
  jobs sh !! i = Some job → state job = FG →
  waitfg env p sh = None.
Proof.
  intros Hb Hg Hi Hs.
  assert (pid job = p) as Hp.
  { apply first_slot_lookup in Hg as (j & Hj & Hpj). congruence. }
  unfold waitfg, waitfg_enter. simpl. rewrite Hg.
  assert (∀ sh1, sigchld_blocked sh1 = true → jobs sh1 = jobs sh →
            waitfg_loop env (Some i) p sh1 = None) as Hloop.
  { induction env as [|t env IH]; intros sh1 Hb1 Hj1; simpl;
      unfold waitfg_cond; rewrite Hj1, Hi, Hp, Hs; simpl;
      rewrite !bool_decide_eq_true_2 by done; simpl; [done|].
    apply IH; unfold sleep; destruct (tk_modes t); simpl; by rewrite Hb1. }
  by rewrite Hloop.
Qed.

Lemma waitfg_blocked_never_returns_witness :
  waitfg [Tick None [(100, WEXITED 0)]] 100
    (set_sigchld_blocked true
       (set_jobs (<[0%nat := Job 100 1 FG "ls"]> (initjobs jobs_static))
          (startup 50 0))) = None.
Proof.
  apply (waitfg_blocked_never_returns _ 100 _ 0 (Job 100 1 FG "ls"));
    reflexivity.
Defined.



(** ** Launching a pipeline *)

Lemma launch_stages_err os cc n :
  ∀ i prev leader sh sh' res,
  launch_stages os cc n i prev leader sh = Some (sh', res) →
  match res with
  | Some _ => err sh' = err sh
  | None => err sh' = err sh ++ ["pipe"] ∨ err sh' = err sh ++ ["fork"]
  end.
Proof.
  induction n as [|n IH]; intros i prev leader sh sh' res Hl; simpl in Hl.
  { by simplify_eq. }
  destruct (decide (i < cc - 1)%nat) as [Hlt|Hge].
  - destruct (os_pipe (os i)) as [[r w]|]; [|simplify_eq; by left].
    destruct (decide (os_fork (os i) < 0)); [simplify_eq; by right|].
    destruct (decide (os_fork (os i) = 0)); [done|].
    apply IH in Hl. destruct (decide (prev ≠ STDIN_FILENO)); by simpl in *.
  - destruct (decide (os_fork (os i) < 0)); [simplify_eq; by right|].
    destruct (decide (os_fork (os i) = 0)); [done|].
    apply IH in Hl. destruct (decide (prev ≠ STDIN_FILENO)); by simpl in *.
Qed.

(** A launch either runs to its end, and then the signal mask is the one
    it found and nothing went to stderr; or it stops at a [pipe] or [fork]
    that failed, and then it has written the diagnostic and returned to
    the prompt with SIGCHLD blocked, leaving table, counter and stdout
    untouched and the children forked so far on their own. *)
Theorem process_pipeline_completes_or_aborts (os : nat → stage_os)
    (cmdline : string) (bg : bool) (sh sh' : shell) (nx : next) :
  process_pipeline os cmdline bg sh = Some (sh', nx) →
  (err sh' = err sh ∧ sigchld_blocked sh' = sigchld_blocked sh ∧
   nx = (if bg then Return
         else Waitfg (if decide (split_commands cmdline bg = [])
                      then 0 else os_fork (os 0%nat)))) ∨
  ((err sh' = err sh ++ ["pipe"] ∨ err sh' = err sh ++ ["fork"]) ∧
   nx = Return ∧ sigchld_blocked sh' = true ∧
   jobs sh' = jobs sh ∧ next_jid sh' = next_jid sh ∧ out sh' = out sh ∧
   kills sh' = kills sh ∧ children sh ⊆ children sh').
Proof.
  unfold process_pipeline. intros Hpp.
  destruct (bg && _) eqn:Hbg; [done|].
  set (cc := length (split_commands cmdline bg)) in *.
  destruct (launch_stages os cc cc 0 STDIN_FILENO 0
              (set_sigchld_blocked true sh)) as [[sh1 [leader|]]|] eqn:Hls;
    [| |done].
  - left.
    pose proof (launch_stages_err _ _ _ _ _ _ _ _ _ Hls) as He. simpl in He.
    assert (leader = if decide (split_commands cmdline bg = [])
                     then 0 else os_fork (os 0%nat)) as Hlead.
    { destruct (split_commands cmdline bg) as [|c0 cs] eqn:Hsc.
      - simpl in Hls. by simplify_eq.
      - rewrite decide_False by done.
        by apply launch_stages_leader_first in Hls as (-> & _). }
    destruct (addjob _ _ _ _ _) as [[ret tbl] nj].
    destruct bg; simplify_eq; simpl; by rewrite He.
  - right. simplify_eq.
    pose proof (launch_stages_err _ _ _ _ _ _ _ _ _ Hls) as He.
    apply launch_stages_keeps in Hls as (Hj & Hn & Hc & Hb & Hk & Ho).
    simpl in *. split_and!; done.
Qed.

Lemma process_pipeline_completes_or_aborts_witness :
  ∃ sh',
    process_pipeline (λ _, StageOs None (-1)) "ls" false (startup 50 0) =
      Some (sh', Return) ∧
    sigchld_blocked sh' = true ∧ err sh' = ["fork"].
Proof.
  destruct (process_pipeline (λ _, StageOs None (-1)) "ls" false
              (startup 50 0)) as [[sh' nx]|] eqn:E; [|by vm_compute in E].
  destruct (process_pipeline_completes_or_aborts _ _ _ _ _ _ E)
    as [(He & _)|(He & -> & Hb & _)].
  - vm_compute in E. simplify_eq.
  - exists sh'. split; [done|]. split; [done|].
    vm_compute in E. by simplify_eq.
Defined.






(** A launch onto a full table.  The children are forked and run, but no
    job is made for them: table and counter stay as they are, a
    background launch prints job id 0, and a foreground launch does not
    wait at all, since [waitfg] finds no slot for the pid. *)
Theorem process_pipeline_table_full (os : nat → stage_os) (cmdline : string)
    (bg : bool) (sh sh' : shell) (nx : next) :
  length (jobs sh) = MAX_JOBS →
  (∀ i j, jobs sh !! i = Some j → pid j ≠ 0 ∧ pid j ≠ os_fork (os 0%nat)) →
  process_pipeline os cmdline bg sh = Some (sh', nx) →
  jobs sh' = jobs sh ∧ next_jid sh' = next_jid sh ∧
  (err sh' = err sh → bg = true →
   out sh' = out sh ++ ["[0] (" +:+ pretty (os_fork (os 0%nat)) +:+ ") " +:+
                        cmdline +:+ nl]) ∧
  (bg = false → ∀ env, ∃ sh'', finish env (sh', nx) = Some sh'' ∧
                               jobs sh'' = jobs sh).
Proof.
  intros Hlen Hfull Hpp.
  unfold process_pipeline in Hpp.
  destruct (bg && _) eqn:Hbg; [done|].
  set (cc := length (split_commands cmdline bg)) in *.
  destruct (launch_stages os cc cc 0 STDIN_FILENO 0
              (set_sigchld_blocked true sh)) as [[sh1 [leader|]]|] eqn:Hls;
    [| |done].
  2:{ simplify_eq. pose proof (launch_stages_err _ _ _ _ _ _ _ _ _ Hls) as He.
      apply launch_stages_keeps in Hls as (Hj & Hn & _ & _ & _ & Ho).
      simpl in *. split_and!; try done.
      - intros He'. rewrite He' in He.
        destruct He as [He|He]; apply (f_equal length) in He;
          rewrite length_app in He; simpl in He; lia.
      - intros -> env. exists sh'. by split. }
  pose proof (launch_stages_keeps _ _ _ _ _ _ _ _ _ Hls)
    as (Hj & Hn & _ & _ & _ & Ho). simpl in Hj, Hn, Ho.
  assert (addjob (jobs sh1) (next_jid sh1) leader (if bg then BG else FG)
            cmdline = (0, jobs sh1, next_jid sh1)) as Hadd.
  { apply addjob_full. intros i j Hi. rewrite Hj in Hi.
    by destruct (Hfull i j Hi). }
  rewrite Hadd in Hpp.
  assert (leader = 0 ∨ leader = os_fork (os 0%nat)) as Hlead.
  { destruct cc as [|n] eqn:Hcc.
    - simpl in Hls. simplify_eq. by left.
    - apply launch_stages_leader_first in Hls as (-> & _). by right. }
  assert (getjobpid (jobs sh) leader = None) as Hg.
  { apply getjobpid_absent. intros i j Hi.
    destruct (Hfull i j Hi) as [H0 H1]. by destruct Hlead as [-> | ->]. }
  destruct bg; simplify_eq; simpl.
  - split_and!; try done. intros _ _. rewrite Hj, Ho.
    unfold pid2jid. unfold getjobpid in Hg. rewrite Hg.
    destruct Hlead as [-> | ->]; [|done].
    (* no stage at all cannot be a background launch *)
    destruct cc; [done|].
    by apply launch_stages_leader_first in Hls as (<- & _).
  - split_and!; try done. intros _ env.
    unfold finish, waitfg, waitfg_enter. simpl. rewrite Hj, Hg.
    rewrite waitfg_loop_done by done. simpl. eauto.
Qed.

Lemma process_pipeline_table_full_witness :
  ∃ sh' nx,
    process_pipeline (λ _, StageOs None 100) "ls" false
      (set_jobs ((λ k, Job (Z.of_nat k + 1) (Z.of_nat k + 1) BG "x")
                   <$> seq 0 16) (startup 50 0)) = Some (sh', nx) ∧
    jobs sh' = (λ k, Job (Z.of_nat k + 1) (Z.of_nat k + 1) BG "x") <$> seq 0 16.
Proof.
  destruct (process_pipeline (λ _, StageOs None 100) "ls" false
              (set_jobs ((λ k, Job (Z.of_nat k + 1) (Z.of_nat k + 1) BG "x")
                           <$> seq 0 16) (startup 50 0)))
    as [[sh' nx]|] eqn:E; [|by vm_compute in E].
  exists sh', nx. split; [reflexivity|].
  refine (proj1 (process_pipeline_table_full _ _ _ _ _ _ _ _ E)).
  - reflexivity.
  - intros i j Hi.
    assert (Forall (λ j, pid j ≠ 0 ∧ pid j ≠ 100)
              ((λ k, Job (Z.of_nat k + 1) (Z.of_nat k + 1) BG "x")
                 <$> seq 0 16)) as HF by (repeat constructor; simpl; lia).
    by eapply Forall_lookup_1 in HF.
Defined.

(** ** How a stage ends *)

Local Opaque MAX_ARGS.

(** A stage without a word (an empty segment, or blanks only) exits with
    status 0 at once: nothing is opened and nothing is written. *)
Theorem stage_without_words (found : string → bool) (args0 : list cell)
    (seg : string) (in_fd out_fd : Z) (p : proc) :
  length args0 = MAX_ARGS →
  strtok blanks seg = [] →
  parse_and_execute_stage found args0 seg in_fd out_fd p = Some (Exited 0, p).
Proof.
  intros Hlen Htok. rewrite parse_and_execute_stage_words by done.
  by rewrite Htok, take_nil.
Qed.

Lemma stage_without_words_witness :
  parse_and_execute_stage (λ _, true) (replicate 64 None) "   " (-1) (-1)
    (Proc ∅ [] [] []) = Some (Exited 0, Proc ∅ [] [] []).
Proof.
  apply (stage_without_words (λ _, true) (replicate 64 None) "   ");
    reflexivity.
Defined.

(** A redirection that cannot be set up ends the stage with status 1
    before any program is looked up.  When it is an [open] that fails,
    [perror] gets the text of that operator ("open <", "open >" or
    "open >>"); when it is an operator that is the last word, with no file
    name after it, the stage exits without a single word of diagnostic.
    In both cases the earlier redirections have been opened. *)
Theorem stage_redirection_fails (found : string → bool) (args0 : list cell)
    (seg : string) (p : proc) :
  length args0 = MAX_ARGS →
  let ws := take (MAX_ARGS - 1) (strtok blanks seg) in
  let run := parse_and_execute_stage found args0 seg (-1) (-1) p in
  (∀ rs1 r path rs2 more,
     redirections_of ws = rs1 ++ (r, path) :: rs2 →
     opens p = replicate (length rs1) true ++ false :: more →
     ∃ p', run = Some (Exited 1, p') ∧
           c_err p' = c_err p ++ [redir_msg r] ∧ c_out p' = c_out p) ∧
  (∀ more,
     dangling ws = true →
     opens p = replicate (length (redirections_of ws)) true ++ more →
     ∃ p', run = Some (Exited 1, p') ∧
           c_err p' = c_err p ∧ c_out p' = c_out p ∧ opens p' = more).
Proof.
  intros Hlen ws run.
  assert (run = stage_on_words found ws (-1) (-1) p) as ->
    by (by apply parse_and_execute_stage_words).
  clearbody ws. unfold stage_on_words. split.
  - intros rs1 r path rs2 more Hrs Hop.
    destruct ws as [|w0 ws'] eqn:Ews; [by destruct rs1|].
    rewrite <- Ews in *. rewrite Hrs.
    destruct (run_redirs_first_failure rs1 r path rs2 (-1) (-1) p more Hop)
      as (Hok & He & Ho).
    destruct (run_redirs _ _ _ _) as [[[ok i'] o'] p1].
    simpl in *. subst ok. simpl. eauto.
  - intros more Hd Hop.
    destruct ws as [|w0 ws'] eqn:Ews; [done|].
    rewrite <- Ews in *. rewrite Hd.
    pose proof (run_redirs_all_open _ (-1) (-1) p more Hop) as Hok.
    destruct (run_redirs (redirections_of ws) (-1) (-1) p)
      as [[[ok i'] o'] p1] eqn:Hrun.
    simpl in Hok. subst ok. simpl.
    exists p1. split; [done|].
    apply run_redirs_ok in Hrun as Hfacts.
    destruct Hfacts as (_ & Hout & Herr & _).
    split_and!; try done.
    clear -Hrun Hop. revert p p1 i' o' more Hrun Hop.
    generalize (-1) at 1. generalize (-1) at 1.
    induction (redirections_of ws) as [|[r path] rs IH];
      intros i o p p1 i' o' more Hrun Hop; simpl in *.
    + by simplify_eq.
    + rewrite redir_open_flags, Hop in Hrun.
      destruct (lowest_free_spec (fdt p)) as [_ Hpos].
      rewrite decide_False in Hrun by lia.
      by eapply IH in Hrun.
Qed.

Lemma stage_redirection_fails_witness :
  ∃ p', parse_and_execute_stage (λ _, true) (replicate 64 None) "ls >"
          (-1) (-1) (Proc ∅ [] [] []) = Some (Exited 1, p') ∧
        c_err p' = [] ∧ c_out p' = [] ∧ opens p' = [].
Proof.
  destruct (stage_redirection_fails (λ _, true) (replicate 64 None) "ls >"
              (Proc ∅ [] [] [])) as [_ H]; [reflexivity|].
  apply (H []); reflexivity.
Defined.

Lemma dup2_out a b p : c_out (dup2 a b p) = c_out p.
Proof. unfold dup2. by destruct (fdt p !! a). Qed.

Lemma dup2_err a b p : c_err (dup2 a b p) = c_err p.
Proof. unfold dup2. by destruct (fdt p !! a). Qed.

(** A program that [execvp] does not find: the stage prints
    "<program>: Command not found" on its standard output and exits with
    status 1.  The redirections are in place by then, so with [> file] the
    message goes into the file. *)
Theorem stage_command_not_found (found : string → bool) (args0 : list cell)
    (seg : string) (p : proc) (prog : string) (rest : list string)
    (more : list bool) :
  length args0 = MAX_ARGS →
  is_Some (fdt p !! 0) → is_Some (fdt p !! 1) →
  let ws := take (MAX_ARGS - 1) (strtok blanks seg) in
  dangling ws = false →
  opens p = replicate (length (redirections_of ws)) true ++ more →
  strip_redirs ws = prog :: rest → found prog = false →
  ∃ p', parse_and_execute_stage found args0 seg (-1) (-1) p =
          Some (Exited 1, p') ∧
        c_out p' = c_out p ++ [prog +:+ ": Command not found" +:+ nl] ∧
        c_err p' = c_err p ∧
        fdt p' !! 1 =
          match last_out (redirections_of ws) with
          | Some (r, path) => Some (redir_file r path)
          | None => fdt p !! 1
          end.
Proof.
  intros Hlen H0 H1 ws Hd Hop Hstrip Hfound.
  rewrite parse_and_execute_stage_words by done. fold ws. clearbody ws.
  unfold stage_on_words.
  destruct ws as [|w0 ws'] eqn:Ews; [done|]. rewrite <- Ews in *.
  pose proof (run_redirs_all_open _ (-1) (-1) p more Hop) as Hok.
  destruct (run_redirs (redirections_of ws) (-1) (-1) p)
    as [[[ok i'] o'] p1] eqn:Hrun.
  simpl in Hok. subst ok. rewrite Hd, Hstrip, Hfound. simpl.
  apply run_redirs_ok in Hrun as (Hsub & Hout & Herr & Hin & Hou).
  pose proof (redirect_std p p1 (redirections_of ws) i' o' H0 H1 Hsub) as Hstd.
  destruct Hstd as [_ Hs1].
  { destruct (last_in _); [tauto|done]. }
  { destruct (last_out _) as [[??]|]; [tauto|done]. }
  eexists. split; [reflexivity|]. simpl in *.
  split_and!; [| |done].
  - f_equal. rewrite <- Hout.
    repeat case_decide; simpl; rewrite ?dup2_out; simpl; by rewrite ?dup2_out.
  - rewrite <- Herr.
    repeat case_decide; simpl; rewrite ?dup2_err; simpl; by rewrite ?dup2_err.
Qed.

Lemma stage_command_not_found_witness :
  ∃ p', parse_and_execute_stage (λ _, false) (replicate 64 None) "nope > f"
          (-1) (-1)
          (Proc {[0 := Inherited 0; 1 := Inherited 1]} [true] [] []) =
          Some (Exited 1, p') ∧
        c_out p' = ["nope: Command not found" +:+ nl] ∧
        c_err p' = [] ∧
        fdt p' !! 1 = Some (redir_file RedirOut "f").
Proof.
  apply (stage_command_not_found (λ _, false) (replicate 64 None) "nope > f"
           (Proc {[0 := Inherited 0; 1 := Inherited 1]} [true] [] [])
           "nope" [] []).
  - reflexivity.
  - by exists (Inherited 0).
  - by exists (Inherited 1).
  - reflexivity.
  - reflexivity.
  - reflexivity.
  - reflexivity.
Defined.

(** The array code of a stage stays inside [args]: it has a result for
    every segment, but for one case, a stage that consists of
    redirections only, all of which open; [args[0]] is then NULL when
    [execvp] is called. *)
Theorem stage_defined_unless_only_redirections (found : string → bool)
    (args0 : list cell) (seg : string) (in_fd out_fd : Z) (p : proc) :
  length args0 = MAX_ARGS →
  let ws := take (MAX_ARGS - 1) (strtok blanks seg) in
  parse_and_execute_stage found args0 seg in_fd out_fd p = None ↔
  ws ≠ [] ∧ strip_redirs ws = [] ∧ dangling ws = false ∧
  (run_redirs (redirections_of ws) in_fd out_fd p).1.1.1 = true.
Proof.
  intros Hlen ws. rewrite parse_and_execute_stage_words by done. fold ws.
  clearbody ws. unfold stage_on_words.
  destruct ws as [|w0 ws'] eqn:Ews; [naive_solver|]. rewrite <- Ews in *.
  destruct (run_redirs _ _ _ _) as [[[ok i'] o'] p1]. simpl.
  destruct ok, (dangling ws); simpl; try naive_solver.
  destruct (strip_redirs ws) as [|prog rest]; [naive_solver|].
  destruct (found prog); naive_solver.
Qed.

Lemma stage_defined_unless_only_redirections_witness :
  parse_and_execute_stage (λ _, true) (replicate 64 None) "< f" (-1) (-1)
    (Proc ∅ [true] [] []) = None.
Proof.
  apply (stage_defined_unless_only_redirections (λ _, true)
           (replicate 64 None) "< f" (-1) (-1) (Proc ∅ [true] [] [])).
  - reflexivity.
  - split_and!; [discriminate|reflexivity|reflexivity|reflexivity].
Defined.

Local Transparent MAX_ARGS.

(** ** Words *)

Lemma list_ascii_of_string_app (s1 s2 : string) :
  list_ascii_of_string (s1 +:+ s2) =
  list_ascii_of_string s1 ++ list_ascii_of_string s2.
Proof. induction s1 as [|c s1 IH]; simpl; [done|]. by rewrite IH. Qed.

Lemma strtok_from_words delim s :
  ∀ cur,
  (∀ c, c ∈ list_ascii_of_string cur → c ∉ delim) →
  Forall (λ tok, tok ≠ "" ∧ ∀ c, c ∈ list_ascii_of_string tok → c ∉ delim)
    (strtok_from delim cur s).
Proof.
  induction s as [|c s IH]; intros cur Hcur; simpl.
  - destruct (decide (cur = "")); [constructor|]. by repeat constructor.
  - destruct (decide (c ∈ delim)) as [Hc|Hc].
    + destruct (decide (cur = "")).
      * apply IH. simpl. set_solver.
      * constructor; [done|]. apply IH. simpl. set_solver.
    + apply IH. intros c' Hc'. rewrite list_ascii_of_string_app in Hc'.
      simpl in Hc'. apply elem_of_app in Hc' as [Hc'|Hc']; [by apply Hcur|].
      apply list_elem_of_singleton in Hc' as ->. done.
Qed.

(** The words the shell cuts out of a line, at both places where it does
    ([eval] and the stage of a child): none is empty and none contains a
    delimiter.  So [argv[0]] always has a first character, and no word
    handed to a program holds a blank. *)
Theorem strtok_words (delim : list ascii) (s : string) :
  Forall (λ tok, tok ≠ "" ∧ ∀ c, c ∈ list_ascii_of_string tok → c ∉ delim)
    (strtok delim s).
Proof. apply strtok_from_words. simpl. set_solver. Qed.

Lemma strtok_from_blank delim s :
  Forall (λ c, c ∈ delim) (list_ascii_of_string s) →
  strtok_from delim "" s = [].
Proof.
  induction s as [|c s IH]; intros Hall; simpl; [done|].
  simpl in Hall. apply Forall_cons in Hall as [Hc Hall].
  rewrite decide_True by done. simpl. by apply IH.
Qed.

(** A line of blanks only (or an empty one) is no command: [eval]
    returns at once and the shell is exactly as before. *)
Theorem eval_blank_line (os : nat → stage_os) (cmdline : string) (sh : shell) :
  Forall (λ c, c ∈ blanks) (list_ascii_of_string cmdline) →
  eval os cmdline sh = Some (sh, Return).
Proof.
  intros Hall. unfold eval, strtok.
  by rewrite (strtok_from_blank blanks cmdline Hall).
Qed.

Lemma eval_blank_line_witness :
  eval (λ _, StageOs None (-1)) ("  " +:+ nl) (startup 50 0) =
  Some (startup 50 0, Return).
Proof.
  apply (eval_blank_line (λ _, StageOs None (-1)) ("  " +:+ nl) (startup 50 0)).
  repeat constructor; set_solver.
Defined.

(** ** Reachable states *)

(** Of the slots that hold a job (their pid is not 0), one is in state FG
    only from the statement that puts it there ([job->state = FG] in
    [do_bgfg], [addjob] in a foreground launch) to the end of the loop of
    [waitfg], and it is the job [waitfg] is called for.  So at the prompt
    no job is in state FG, and at no time are two.  (A slot that the
    handler has cleared can be left in state FG by [do_bgfg]; it holds no
    job.) *)
Theorem reachable_fg_only_while_waiting (self : Z) (tm : termios) (w : world) :
  reachable self tm w →
  (∀ i j, jobs (w_shell w) !! i = Some j → pid j ≠ 0 → state j = FG →
     w_mode w = Bgfg_set false i ∨ w_mode w = Wait_call (pid j) ∨
     w_mode w = Wait_lookup (pid j) ∨ w_mode w = Waiting (Some i) (pid j)) ∧
  (length (filter (λ j, (pid j ≠ 0)%Z ∧ state j = FG)
             (jobs (w_shell w))) ≤ 1)%nat.
Proof.
  intros Hr. apply reachable_ok in Hr as ((_ & _ & _ & Huniq) & _ & Hfg).
  split.
  - intros i j Hi Hlive Hs. specialize (Hfg i j Hi Hlive Hs).
    destruct (w_mode w) as [| |k|k|k|k|bg k|bg k|bg k|l c|q|q|job q| |];
      simpl in Hfg; try done.
    + destruct bg; [done|]. left. by rewrite Hfg.
    + right. left. by rewrite Hfg.
    + right. right. left. by rewrite Hfg.
    + destruct Hfg as [-> ->]. by do 3 right.
  - apply filter_at_most_one.
    intros i i' x y Hi Hi' [Hx Hsx] [Hy Hsy].
    pose proof (Hfg i x Hi Hx Hsx) as Fx.
    pose proof (Hfg i' y Hi' Hy Hsy) as Fy.
    destruct (w_mode w) as [| |k|k|k|k|bg k|bg k|bg k|l c|q|q|job q| |];
      simpl in Fx, Fy; try done.
    + destruct bg; [done|]. congruence.
    + apply (Huniq i i' x y); auto. left. congruence.
    + apply (Huniq i i' x y); auto. left. congruence.
    + destruct Fx as [Fx _], Fy as [Fy _]. congruence.
Qed.

Lemma reachable_fg_only_while_waiting_witness :
  ∃ w, reachable 50 0 w ∧
       jobs (w_shell w) !! 0%nat = Some (Job 100 1 FG ("vi" +:+ nl)) ∧
       w_mode w = Waiting (Some 0%nat) 100 ∧
       (length (filter (λ j, (pid j ≠ 0)%Z ∧ state j = FG)
                  (jobs (w_shell w))) ≤ 1)%nat.
Proof.
  destruct foreground_job_reachable as (w & Hr & Hm & Hj).
  exists w. split; [exact Hr|]. split; [exact Hj|]. split; [exact Hm|].
  exact (proj2 (reachable_fg_only_while_waiting 50 0 w Hr)).
Defined.

(** The table of a reachable state: 16 slots; an empty slot has pid 0
    and jid 0; a slot that holds a job holds the pid of a child that has
    not been waited for (no job outlives the reaping of its leader) and a
    jid from 1 up to, but not including, the counter. *)
Theorem reachable_table_well_formed (self : Z) (tm : termios) (w : world) :
  reachable self tm w →
  length (jobs (w_shell w)) = MAX_JOBS ∧
  1 ≤ next_jid (w_shell w) ∧
  ∀ i j, jobs (w_shell w) !! i = Some j →
    (pid j = 0 ∧ jid j = 0) ∨
    (pid j ≠ 0 ∧ pid j ∈ children (w_shell w) ∧
     1 ≤ jid j < next_jid (w_shell w)).
Proof.
  intros Hr. apply reachable_ok in Hr as ((Hlen & Hnj & Hshape & _) & _).
  done.
Qed.

Lemma reachable_table_well_formed_witness :
  ∃ w, reachable 50 0 w ∧ length (jobs (w_shell w)) = MAX_JOBS.
Proof.
  destruct two_jobs_reachable as (w & Hr & _).
  exists w. split; [exact Hr|].
  exact (proj1 (reachable_table_well_formed 50 0 w Hr)).
Defined.

(** ** Ids printed and ids typed *)








(** ** The child's pipe wiring *)

(** A stage of a pipeline reads what the stage before it writes: after the
    wiring, descriptor 0 is the read end the loop kept from the previous
    pipe (for the first stage: the inherited one) and descriptor 1 is the
    write end of the stage's own pipe (for the last stage: the inherited
    one).  The pipe descriptors themselves are closed in the child, and no
    other descriptor is touched. *)
Theorem pipe_wiring_connects (cmd_count i : nat) (prev_pipe_read : Z)
    (pipefd : Z * Z) (p : proc) (fin fout : file) :
  (prev_pipe_read ≠ STDIN_FILENO →
   2 ≤ prev_pipe_read ∧ fdt p !! prev_pipe_read = Some fin) →
  ((i < cmd_count - 1)%nat →
   2 ≤ pipefd.1 ∧ 2 ≤ pipefd.2 ∧ pipefd.1 ≠ pipefd.2 ∧
   prev_pipe_read ≠ pipefd.2 ∧ fdt p !! pipefd.2 = Some fout) →
  let pw := pipe_wiring cmd_count i prev_pipe_read pipefd p in
  fdt pw !! STDIN_FILENO =
    (if decide (prev_pipe_read ≠ STDIN_FILENO) then Some fin
     else fdt p !! STDIN_FILENO) ∧
  fdt pw !! STDOUT_FILENO =
    (if decide (i < cmd_count - 1)%nat then Some fout
     else fdt p !! STDOUT_FILENO) ∧
  (prev_pipe_read ≠ STDIN_FILENO → fdt pw !! prev_pipe_read = None) ∧
  ((i < cmd_count - 1)%nat →
   fdt pw !! pipefd.1 = None ∧ fdt pw !! pipefd.2 = None) ∧
  (∀ fd, fd ≠ STDIN_FILENO → fd ≠ STDOUT_FILENO → fd ≠ prev_pipe_read →
         fd ≠ pipefd.1 → fd ≠ pipefd.2 → fdt pw !! fd = fdt p !! fd) ∧
  opens pw = opens p ∧ c_out pw = c_out p ∧ c_err pw = c_err p.
Proof.
  unfold pipe_wiring, STDIN_FILENO, STDOUT_FILENO. intros Hin Hout.
  destruct (decide (prev_pipe_read ≠ 0)) as [Hp|Hp];
    destruct (decide (i < cmd_count - 1)%nat) as [Hi|Hi]; simpl.
  - destruct (Hin Hp) as [Hp2 Hfin].
    destruct (Hout Hi) as (Hr & Hw & Hrw & Hpw & Hfout).
    assert (dup2 prev_pipe_read 0 p =
            Proc (<[0 := fin]> (fdt p)) (opens p) (c_out p) (c_err p)) as ->
      by (unfold dup2; by rewrite Hfin).
    set (p1 := c_close prev_pipe_read _).
    assert (dup2 pipefd.2 1 p1 =
            Proc (<[1 := fout]> (fdt p1)) (opens p) (c_out p) (c_err p)) as ->.
    { unfold dup2, p1, c_close. simpl.
      by rewrite lookup_delete_ne, lookup_insert_ne, Hfout by lia. }
    unfold p1, c_close; simpl.
    split_and!; try done.
    + rewrite !lookup_delete_ne, lookup_insert_ne, lookup_delete_ne,
        lookup_insert_eq by lia. done.
    + rewrite !lookup_delete_ne, lookup_insert_eq by lia. done.
    + intros _. destruct (decide (prev_pipe_read = pipefd.1)) as [->|Hne].
      * by rewrite lookup_delete_eq.
      * rewrite !lookup_delete_ne, lookup_insert_ne by lia.
        by rewrite lookup_delete_eq.
    + intros _. split; [by rewrite lookup_delete_eq|].
      rewrite lookup_delete_ne by done. by rewrite lookup_delete_eq.
    + intros fd ? ? ? ? ?.
      by rewrite !lookup_delete_ne, lookup_insert_ne, lookup_delete_ne,
        lookup_insert_ne.
  - destruct (Hin Hp) as [Hp2 Hfin].
    unfold dup2. rewrite Hfin. unfold c_close; simpl.
    split_and!; try done.
    + rewrite lookup_delete_ne, lookup_insert_eq by lia. done.
    + rewrite lookup_delete_ne, lookup_insert_ne by lia. done.
    + intros _. by rewrite lookup_delete_eq.
    + intros fd ? ? ? ? ?. by rewrite lookup_delete_ne, lookup_insert_ne.
  - destruct (Hout Hi) as (Hr & Hw & Hrw & Hpw & Hfout).
    unfold dup2. rewrite Hfout. unfold c_close; simpl.
    split_and!; try done.
    + rewrite !lookup_delete_ne, lookup_insert_ne by lia. done.
    + rewrite !lookup_delete_ne, lookup_insert_eq by lia. done.
    + intros _. split; [by rewrite lookup_delete_eq|].
      rewrite lookup_delete_ne by done. by rewrite lookup_delete_eq.
    + intros fd ? ? ? ? ?.
      by rewrite !lookup_delete_ne, lookup_insert_ne.
  - split_and!; done.
Qed.

Lemma pipe_wiring_connects_witness :
  fdt (pipe_wiring 3 1 3 (4, 5)
         (Proc (list_to_map [(0, Inherited 0); (1, Inherited 1);
                             (3, PipeRead 0); (4, PipeRead 1);
                             (5, PipeWrite 1)]) [] [] [])) !! 0 =
    Some (PipeRead 0) ∧
  fdt (pipe_wiring 3 1 3 (4, 5)
         (Proc (list_to_map [(0, Inherited 0); (1, Inherited 1);
                             (3, PipeRead 0); (4, PipeRead 1);
                             (5, PipeWrite 1)]) [] [] [])) !! 1 =
    Some (PipeWrite 1).
Proof.
  destruct (pipe_wiring_connects 3 1 3 (4, 5)
              (Proc (list_to_map [(0, Inherited 0); (1, Inherited 1);
                                  (3, PipeRead 0); (4, PipeRead 1);
                                  (5, PipeWrite 1)]) [] [] [])
              (PipeRead 0) (PipeWrite 1))
    as (H0 & H1 & _).
  - intros _. split; [lia|reflexivity].
  - intros _. simpl. split_and!; [lia|lia|lia|lia|reflexivity].
  - split; [exact H0|exact H1].
Defined.
